(** * The identifier-resolution cache of scaleway-cli

    A shallow embedding of [ScalewayCache] (the per-user cache that
    resolves partial or fuzzy names to full identifiers) and of the
    part of Go's [regexp], [unicode/utf8] and [strings] packages that
    its look-ups call.

    Go strings are byte sequences: they are modelled as [string], and
    as [list ascii] where the matcher walks through them.  Go maps are
    [gmap string string]; the order in which a [for ... range] loop
    visits a map is left open (see [RangeOrder]).  The mutex [Lock] is
    taken and released by each method and is always free between two
    calls of a sequential run, so it carries no state here.

    Two smaller programs follow the cache: the command [rmi], over
    its callees as parameters, and [checkEndpoints] of the database
    instance tests, over the answers of the IPAM API. *)

From Stdlib Require Import String Ascii List Bool Arith Lia NArith.
From stdpp Require Import base option gmap strings list fin_maps.

Local Open Scope N_scope.

(** ** Bytes *)

Definition byteVal (c : ascii) : N := N_of_ascii c.

Definition inRange (lo hi : N) (c : ascii) : bool :=
  (lo <=? byteVal c) && (byteVal c <=? hi).

Definition isOneOf (cs : string) (c : ascii) : bool :=
  existsb (Ascii.eqb c) (list_ascii_of_string cs).

Definition newline : ascii := ascii_of_N 10.

(** ** Outcomes

    A call returns, or panics.  [OutOfModel] answers the calls that
    hand [regexp] a pattern outside the syntax modelled below: nothing
    is said about them. *)

Inductive outcome (A : Type) : Type :=
| Returns (a : A)
| Panics
| OutOfModel.

Arguments Returns {A} a.
Arguments Panics {A}.
Arguments OutOfModel {A}.

Global Instance outcome_bind : MBind outcome := fun A B f m =>
  match m with
  | Returns a => f a
  | Panics => Panics
  | OutOfModel => OutOfModel
  end.

(** ** [unicode/utf8]: the width of the rune at the head of a text

    [utf8.DecodeRuneInString] returns the rune and its width in bytes.
    An ill-formed or truncated sequence decodes as [RuneError] of
    width 1.  Only the width matters to the matcher below. *)

Module utf8.

(** A continuation byte, [locb <= b <= hicb]. *)
Definition isCont (c : ascii) : bool := inRange 0x80 0xBF c.

(** The range accepted for the second byte, by first byte (the
    [acceptRanges] table). *)
Definition acceptSecond (b0 b1 : ascii) : bool :=
  if byteVal b0 =? 0xE0 then inRange 0xA0 0xBF b1
  else if byteVal b0 =? 0xED then inRange 0x80 0x9F b1
  else if byteVal b0 =? 0xF0 then inRange 0x90 0xBF b1
  else if byteVal b0 =? 0xF4 then inRange 0x80 0x8F b1
  else inRange 0x80 0xBF b1.

Definition DecodeRuneWidth (s : list ascii) : nat :=
  match s with
  | [] => 0%nat
  | b0 :: t =>
    if byteVal b0 <? 0x80 then 1%nat
    else if inRange 0xC2 0xDF b0 then
      match t with
      | b1 :: _ => if acceptSecond b0 b1 then 2%nat else 1%nat
      | _ => 1%nat
      end
    else if inRange 0xE0 0xEF b0 then
      match t with
      | b1 :: b2 :: _ =>
        if acceptSecond b0 b1 && isCont b2 then 3%nat else 1%nat
      | _ => 1%nat
      end
    else if inRange 0xF0 0xF4 b0 then
      match t with
      | b1 :: b2 :: b3 :: _ =>
        if acceptSecond b0 b1 && isCont b2 && isCont b3 then 4%nat else 1%nat
      | _ => 1%nat
      end
    else 1%nat
  end.

End utf8.

(** ** [regexp]: syntax, compilation and matching

    The look-ups build a pattern from the needle and hand it to
    [regexp.MustCompile].  The model covers the patterns made of
    ASCII literals, [.], the repetitions [*], [+], [?] (and their
    non-greedy forms), alternation, capturing groups, a backslash
    before an ASCII non-word character, and a leading [(?i)].  On
    these it reports what Go's parser reports: a regular expression or
    a syntax error.  Anything else (character classes, counted
    repetition, anchors, other escapes and flags, non-ASCII pattern
    text) is answered by [Unmodelled]; the package's limits on
    pattern size and nesting depth are not modelled either. *)

Module regexp.

Inductive Regexp : Type :=
| OpEmptyMatch
| OpLiteral (foldCase : bool) (c : ascii)
| OpAnyCharNotNL
| OpConcat (r1 r2 : Regexp)
| OpAlternate (r1 r2 : Regexp)
| OpStar (r : Regexp)
| OpPlus (r : Regexp)
| OpQuest (r : Regexp)
| OpCapture (r : Regexp).

Inductive compiled : Type :=
| Compiled (re : Regexp)
| SyntaxError
| Unmodelled.

(** *** Parsing *)

Inductive token : Type :=
| TLeftParen | TRightParen | TVerticalBar
| TRepeat (op : Regexp -> Regexp)
| TDot | TBackslash | TLiteral | TOther.

(** The characters Go's parser gives a meaning of their own.  [[],
    [{], [^] and [$] lead outside the modelled syntax, as does every
    byte of a non-ASCII rune. *)
Definition classify (c : ascii) : token :=
  if Ascii.eqb c "(" then TLeftParen
  else if Ascii.eqb c ")" then TRightParen
  else if Ascii.eqb c "|" then TVerticalBar
  else if Ascii.eqb c "*" then TRepeat OpStar
  else if Ascii.eqb c "+" then TRepeat OpPlus
  else if Ascii.eqb c "?" then TRepeat OpQuest
  else if Ascii.eqb c "." then TDot
  else if Ascii.eqb c "\" then TBackslash
  else if isOneOf "[{^$" c || (0x80 <=? byteVal c) then TOther
  else TLiteral.

(** [isalnum] of the parser: a backslash before any other ASCII
    character stands for that character.  The underscore is left out
    of the model, since releases of Go differ on it. *)
Definition isalnum (c : ascii) : bool :=
  inRange 48 57 c || inRange 65 90 c || inRange 97 122 c.

(** The parser's stack between two pseudo-operators: the finished
    alternatives of the open group and the pieces of the current
    concatenation, latest first. *)
Record frame : Type := Frame { alts : list Regexp; seq : list Regexp }.

Definition emptyFrame : frame := Frame [] [].

Definition push (r : Regexp) (f : frame) : frame :=
  Frame (alts f) (r :: seq f).

Fixpoint mkConcat (rs : list Regexp) : Regexp :=
  match rs with
  | [] => OpEmptyMatch
  | [r] => r
  | r :: rs' => OpConcat r (mkConcat rs')
  end.

Fixpoint mkAlternate (r : Regexp) (rs : list Regexp) : Regexp :=
  match rs with
  | [] => r
  | r' :: rs' => OpAlternate r (mkAlternate r' rs')
  end.

(** [p.concat()] *)
Definition concat (f : frame) : Regexp := mkConcat (rev (seq f)).

(** [p.concat(); p.alternate()] *)
Definition alternate (f : frame) : Regexp :=
  match rev (concat f :: alts f) with
  | [] => OpEmptyMatch
  | r :: rs => mkAlternate r rs
  end.

(** The parser's loop.  [stack] holds the frames of the groups that
    are still open; [lastRepeat] tells that the previous token was a
    repetition operator. *)
Fixpoint parse (fold : bool) (t : string) (cur : frame) (stack : list frame)
    (lastRepeat : bool) {struct t} : compiled :=
  match t with
  | EmptyString =>
    match stack with
    | [] => Compiled (alternate cur)
    | _ :: _ => SyntaxError (* missing closing ) *)
    end
  | String c t1 =>
    match classify c with
    | TLeftParen =>
      match t1 with
      | String c1 _ =>
        if Ascii.eqb c1 "?" then Unmodelled
        else parse fold t1 emptyFrame (cur :: stack) false
      | EmptyString => parse fold t1 emptyFrame (cur :: stack) false
      end
    | TRightParen =>
      match stack with
      | [] => SyntaxError (* unexpected ) *)
      | f :: stack' =>
        parse fold t1 (push (OpCapture (alternate cur)) f) stack' false
      end
    | TVerticalBar =>
      parse fold t1 (Frame (concat cur :: alts cur) []) stack false
    | TRepeat op =>
      if lastRepeat then SyntaxError (* invalid nested repetition operator *)
      else
        match seq cur with
        | [] => SyntaxError (* missing argument to repetition operator *)
        | r :: rs =>
          match t1 with
          | String c1 t2 =>
            if Ascii.eqb c1 "?"
            then parse fold t2 (Frame (alts cur) (op r :: rs)) stack true
            else parse fold t1 (Frame (alts cur) (op r :: rs)) stack true
          | EmptyString =>
            parse fold t1 (Frame (alts cur) (op r :: rs)) stack true
          end
        end
    | TDot => parse fold t1 (push OpAnyCharNotNL cur) stack false
    | TBackslash =>
      match t1 with
      | EmptyString => SyntaxError (* trailing backslash *)
      | String c1 t2 =>
        if (byteVal c1 <? 0x80) && negb (isalnum c1) && negb (Ascii.eqb c1 "_")
        then parse fold t2 (push (OpLiteral fold c1) cur) stack false
        else Unmodelled
      end
    | TLiteral => parse fold t1 (push (OpLiteral fold c) cur) stack false
    | TOther => Unmodelled
    end
  end.

Fixpoint trimPrefix (p s : string) : option string :=
  match p, s with
  | EmptyString, _ => Some s
  | String a p', String b s' => if Ascii.eqb a b then trimPrefix p' s' else None
  | String _ _, EmptyString => None
  end.

(** [regexp.Compile]: a leading [(?i)] sets the fold-case flag for
    the whole pattern. *)
Definition Compile (expr : string) : compiled :=
  match trimPrefix "(?i)" expr with
  | Some rest => parse true rest emptyFrame [] false
  | None => parse false expr emptyFrame [] false
  end.

(** *** Matching *)

Definition isUpper (c : ascii) : bool := inRange 65 90 c.
Definition isLower (c : ascii) : bool := inRange 97 122 c.

Definition swapCase (c : ascii) : ascii :=
  if isUpper c then ascii_of_N (byteVal c + 32)
  else if isLower c then ascii_of_N (byteVal c - 32)
  else c.

(** The UTF-8 encodings of the runes in the simple-folding orbit of
    an ASCII character: the character, its other case, and for k and
    s the Kelvin sign U+212A and the long s U+017F. *)
Definition foldVariants (c : ascii) : list (list ascii) :=
  if isUpper c || isLower c then
    [c] :: [swapCase c] ::
    (if isOneOf "kK" c then [[ascii_of_N 0xE2; ascii_of_N 0x84; ascii_of_N 0xAA]]
     else if isOneOf "sS" c then [[ascii_of_N 0xC5; ascii_of_N 0xBF]]
     else [])
  else [[c]].

Definition literalVariants (foldCase : bool) (c : ascii) : list (list ascii) :=
  if foldCase then foldVariants c else [[c]].

Fixpoint trimBytes (p s : list ascii) : option (list ascii) :=
  match p, s with
  | [], _ => Some s
  | a :: p', b :: s' => if Ascii.eqb a b then trimBytes p' s' else None
  | _ :: _, [] => None
  end.

(** The loop of a repetition: stop here, or take one more step that
    consumes text and go round again. *)
Fixpoint iterate (step : list ascii -> (list ascii -> bool) -> bool)
    (k : list ascii -> bool) (fuel : nat) (s : list ascii) {struct fuel} : bool :=
  k s ||
  match fuel with
  | O => false
  | S fuel' =>
    step s (fun s' => (length s' <? length s)%nat && iterate step k fuel' s')
  end.

(** [matchK re s k]: some match of [re] at the head of [s] leaves a
    rest that [k] accepts. *)
Fixpoint matchK (re : Regexp) (s : list ascii) (k : list ascii -> bool) {struct re} : bool :=
  match re with
  | OpEmptyMatch => k s
  | OpLiteral foldCase c =>
    existsb (fun v => match trimBytes v s with Some s' => k s' | None => false end)
            (literalVariants foldCase c)
  | OpAnyCharNotNL =>
    match s with
    | [] => false
    | b :: _ =>
      if Ascii.eqb b newline then false
      else k (skipn (utf8.DecodeRuneWidth s) s)
    end
  | OpConcat r1 r2 => matchK r1 s (fun s' => matchK r2 s' k)
  | OpAlternate r1 r2 => matchK r1 s k || matchK r2 s k
  | OpStar r => iterate (matchK r) k (length s) s
  | OpPlus r => matchK r s (fun s' => iterate (matchK r) k (length s') s')
  | OpQuest r => k s || matchK r s k
  | OpCapture r => matchK r s k
  end.

(** The unanchored search: a match may start at every rune boundary
    of the text, its end included. *)
Fixpoint searchFrom (re : Regexp) (skip : nat) (s : list ascii) : bool :=
  match skip with
  | S n =>
    match s with
    | [] => false
    | _ :: s' => searchFrom re n s'
    end
  | O =>
    matchK re s (fun _ => true) ||
    match s with
    | [] => false
    | _ :: s' => searchFrom re (utf8.DecodeRuneWidth s - 1)%nat s'
    end
  end.

(** The method [MatchString] of a compiled expression. *)
Definition MatchString (re : Regexp) (s : string) : bool :=
  searchFrom re 0 (list_ascii_of_string s).

(** [regexp.MustCompile] panics where [Compile] reports an error. *)
Definition MustCompile (expr : string) : outcome Regexp :=
  match Compile expr with
  | Compiled re => Returns re
  | SyntaxError => Panics
  | Unmodelled => OutOfModel
  end.

End regexp.

Local Close Scope N_scope.

(** ** [strings] *)

Module strings.

Definition HasPrefix (s prefix : string) : bool := String.prefix prefix s.

End strings.

(** ** The cache *)

(** The order in which one [for ... range] loop visits a map: any
    enumeration of its entries.  Go fixes none, and two loops over the
    same map may differ, so every look-up takes the order of its loop
    as an argument. *)
Record RangeOrder : Type := {
  visit :> gmap string string -> list (string * string);
  visit_perm : forall m, visit m ≡ₚ map_to_list m
}.

Definition sortedOrder : RangeOrder :=
  {| visit := map_to_list; visit_perm := fun m => reflexivity (map_to_list m) |}.

(** [ScalewayCache], without its mutex. *)
Record ScalewayCache : Type := {
  Images : gmap string string;
  Snapshots : gmap string string;
  Bootscripts : gmap string string;
  Servers : gmap string string;
  Path : string;
  Modified : bool
}.

Definition IdentifierServer : Z := 0.
Definition IdentifierImage : Z := 1.
Definition IdentifierSnapshot : Z := 2.
Definition IdentifierBootscript : Z := 3.

(** [ScalewayIdentifier]; its field [Type] is [Type_] here. *)
Record ScalewayIdentifier : Type := {
  Identifier : string;
  Type_ : Z
}.

(** *** Look-ups *)

(** Replacing the matches of the constant pattern [^user/] by the
    empty string: a leading [user/] is removed, once. *)
Definition stripUserPrefix (needle : string) : string :=
  match regexp.trimPrefix "user/" needle with
  | Some rest => rest
  | None => needle
  end.

(** Replacing the matches of the constant pattern [[_-]] by [.*]. *)
Fixpoint replaceSeparators (needle : string) : string :=
  match needle with
  | EmptyString => EmptyString
  | String c rest =>
    if isOneOf "_-" c then String "." (String "*" (replaceSeparators rest))
    else String c (replaceSeparators rest)
  end.

(** The body of the look-ups' loop, from the empty result slice. *)
Definition rangeMatching (needle : string) (nameRegex : regexp.Regexp)
    (entries : list (string * string)) : list string :=
  fold_left
    (fun res '(identifier, name) =>
       if strings.HasPrefix identifier needle || regexp.MatchString nameRegex name
       then res ++ [identifier]
       else res)
    entries [].

Definition LookUpImages (ord : RangeOrder) (c : ScalewayCache) (needle : string)
    : outcome (list string) :=
  let needle := stripUserPrefix needle in
  nameRegex ← regexp.MustCompile ("(?i)" +:+ replaceSeparators needle);
  Returns (rangeMatching needle nameRegex (ord (Images c))).

Definition LookUpSnapshots (ord : RangeOrder) (c : ScalewayCache) (needle : string)
    : outcome (list string) :=
  let needle := stripUserPrefix needle in
  nameRegex ← regexp.MustCompile ("(?i)" +:+ replaceSeparators needle);
  Returns (rangeMatching needle nameRegex (ord (Snapshots c))).

Definition LookUpBootscripts (ord : RangeOrder) (c : ScalewayCache) (needle : string)
    : outcome (list string) :=
  nameRegex ← regexp.MustCompile ("(?i)" +:+ replaceSeparators needle);
  Returns (rangeMatching needle nameRegex (ord (Bootscripts c))).

Definition LookUpServers (ord : RangeOrder) (c : ScalewayCache) (needle : string)
    : outcome (list string) :=
  nameRegex ← regexp.MustCompile ("(?i)" +:+ replaceSeparators needle);
  Returns (rangeMatching needle nameRegex (ord (Servers c))).

(** The loops of [LookUpIdentifiers] that tag what a look-up found. *)
Definition appendTagged (type : Z) (identifiers : list string)
    (result : list ScalewayIdentifier) : list ScalewayIdentifier :=
  fold_left
    (fun result identifier =>
       result ++ [{| Identifier := identifier; Type_ := type |}])
    identifiers result.

(** [ord] gives the order of the loop inside each of the four
    look-ups, by type key. *)
Definition LookUpIdentifiers (ord : Z -> RangeOrder) (c : ScalewayCache)
    (needle : string) : outcome (list ScalewayIdentifier) :=
  let result := [] in
  servers ← LookUpServers (ord IdentifierServer) c needle;
  let result := appendTagged IdentifierServer servers result in
  images ← LookUpImages (ord IdentifierImage) c needle;
  let result := appendTagged IdentifierImage images result in
  snapshots ← LookUpSnapshots (ord IdentifierSnapshot) c needle;
  let result := appendTagged IdentifierSnapshot snapshots result in
  bootscripts ← LookUpBootscripts (ord IdentifierBootscript) c needle;
  let result := appendTagged IdentifierBootscript bootscripts result in
  Returns result.

(** *** Mutators *)

(** [v, ok := m[k]]: the zero value and [false] for a missing key. *)
Definition index2 (m : gmap string string) (k : string) : string * bool :=
  match m !! k with
  | Some v => (v, true)
  | None => (EmptyString, false)
  end.

Definition withImages (m : gmap string string) (c : ScalewayCache) : ScalewayCache :=
  {| Images := m; Snapshots := Snapshots c; Bootscripts := Bootscripts c;
     Servers := Servers c; Path := Path c; Modified := Modified c |}.

Definition withSnapshots (m : gmap string string) (c : ScalewayCache) : ScalewayCache :=
  {| Images := Images c; Snapshots := m; Bootscripts := Bootscripts c;
     Servers := Servers c; Path := Path c; Modified := Modified c |}.

Definition withBootscripts (m : gmap string string) (c : ScalewayCache) : ScalewayCache :=
  {| Images := Images c; Snapshots := Snapshots c; Bootscripts := m;
     Servers := Servers c; Path := Path c; Modified := Modified c |}.

Definition withServers (m : gmap string string) (c : ScalewayCache) : ScalewayCache :=
  {| Images := Images c; Snapshots := Snapshots c; Bootscripts := Bootscripts c;
     Servers := m; Path := Path c; Modified := Modified c |}.

Definition withModified (b : bool) (c : ScalewayCache) : ScalewayCache :=
  {| Images := Images c; Snapshots := Snapshots c; Bootscripts := Bootscripts c;
     Servers := Servers c; Path := Path c; Modified := b |}.

Definition InsertServer (identifier name : string) (c : ScalewayCache) : ScalewayCache :=
  let '(currentName, exists_) := index2 (Servers c) identifier in
  if negb exists_ || negb (String.eqb currentName name)
  then withModified true (withServers (<[identifier := name]> (Servers c)) c)
  else c.

Definition RemoveServer (identifier : string) (c : ScalewayCache) : ScalewayCache :=
  withModified true (withServers (delete identifier (Servers c)) c).

Definition ClearServers (c : ScalewayCache) : ScalewayCache :=
  withModified true (withServers ∅ c).

Definition InsertImage (identifier name : string) (c : ScalewayCache) : ScalewayCache :=
  let '(currentName, exists_) := index2 (Images c) identifier in
  if negb exists_ || negb (String.eqb currentName name)
  then withModified true (withImages (<[identifier := name]> (Images c)) c)
  else c.

Definition RemoveImage (identifier : string) (c : ScalewayCache) : ScalewayCache :=
  withModified true (withImages (delete identifier (Images c)) c).

Definition ClearImages (c : ScalewayCache) : ScalewayCache :=
  withModified true (withImages ∅ c).

Definition InsertSnapshot (identifier name : string) (c : ScalewayCache) : ScalewayCache :=
  let '(currentName, exists_) := index2 (Snapshots c) identifier in
  if negb exists_ || negb (String.eqb currentName name)
  then withModified true (withSnapshots (<[identifier := name]> (Snapshots c)) c)
  else c.

Definition RemoveSnapshot (identifier : string) (c : ScalewayCache) : ScalewayCache :=
  withModified true (withSnapshots (delete identifier (Snapshots c)) c).

Definition ClearSnapshots (c : ScalewayCache) : ScalewayCache :=
  withModified true (withSnapshots ∅ c).

Definition InsertBootscript (identifier name : string) (c : ScalewayCache) : ScalewayCache :=
  let '(currentName, exists_) := index2 (Bootscripts c) identifier in
  if negb exists_ || negb (String.eqb currentName name)
  then withModified true (withBootscripts (<[identifier := name]> (Bootscripts c)) c)
  else c.

Definition RemoveBootscript (identifier : string) (c : ScalewayCache) : ScalewayCache :=
  withModified true (withBootscripts (delete identifier (Bootscripts c)) c).

Definition ClearBootscripts (c : ScalewayCache) : ScalewayCache :=
  withModified true (withBootscripts ∅ c).

Definition GetNbServers (c : ScalewayCache) : nat := size (Servers c).
Definition GetNbImages (c : ScalewayCache) : nat := size (Images c).
Definition GetNbSnapshots (c : ScalewayCache) : nat := size (Snapshots c).
Definition GetNbBootscripts (c : ScalewayCache) : nat := size (Bootscripts c).

(** *** Loading *)

(** What [json.Unmarshal] leaves in the four map fields of a zero
    [ScalewayCache]: [None] is a nil map, for a field that the document
    lacks or gives as null.  The other fields are not decoded. *)
Record decodedCache : Type := {
  dImages : option (gmap string string);
  dSnapshots : option (gmap string string);
  dBootscripts : option (gmap string string);
  dServers : option (gmap string string)
}.

(** The pair that [NewScalewayCache] returns: a cache and a nil
    error, or no cache and an error. *)
Inductive loaded (error : Type) : Type :=
| Loaded (c : ScalewayCache)
| Failed (err : error).

Arguments Loaded {error} c.
Arguments Failed {error} err.

(** [make(map[string]string)] where the decoder left nil. *)
Definition orEmpty (m : option (gmap string string)) : gmap string string :=
  match m with
  | Some m' => m'
  | None => ∅
  end.

Section Load.

(** The environment of [NewScalewayCache]: the process environment,
    the file system and the JSON decoder.  [os_Stat] gives the error
    of [os.Stat], [None] for nil. *)
Context {error : Type}.
Variable os_Getenv : string -> string.
Variable filepath_Join : string -> string -> string.
Variable os_Stat : string -> option error.
Variable os_IsNotExist : error -> bool.
Variable ioutil_ReadFile : string -> error + string.
Variable json_Unmarshal : string -> error + decodedCache.

Definition cachePath : string :=
  let homeDir := os_Getenv "HOME" in
  let homeDir := if String.eqb homeDir EmptyString then os_Getenv "USERPROFILE" else homeDir in
  let homeDir := if String.eqb homeDir EmptyString then "/tmp" else homeDir in
  filepath_Join homeDir ".scw-cache.db".

Definition NewScalewayCache : loaded error :=
  match os_Stat cachePath with
  | Some err =>
    if os_IsNotExist err then
      Loaded {| Images := ∅; Snapshots := ∅; Bootscripts := ∅; Servers := ∅;
                Path := cachePath; Modified := false |}
    else Failed err
  | None =>
    match ioutil_ReadFile cachePath with
    | inl err => Failed err
    | inr file =>
      match json_Unmarshal file with
      | inl err => Failed err
      | inr cache =>
        Loaded {| Images := orEmpty (dImages cache);
                  Snapshots := orEmpty (dSnapshots cache);
                  Bootscripts := orEmpty (dBootscripts cache);
                  Servers := orEmpty (dServers cache);
                  Path := cachePath; Modified := false |}
      end
    end
  end.




End Load.

(** *** Saving *)

Section Save.

(** The file system [FS] is threaded through the three calls of
    [Save]; each may change it and may fail. *)
Context {error FS : Type}.
Variable ioutil_TempFile : FS -> (error + string) * FS.
Variable encoder_Encode : string -> ScalewayCache -> FS -> option error * FS.
Variable os_Rename : string -> string -> FS -> option error * FS.

(** [Save] returns its error, and leaves a cache and a file system. *)
Definition Save (c : ScalewayCache) (fs : FS) : option error * ScalewayCache * FS :=
  if Modified c then
    match ioutil_TempFile fs with
    | (inl err, fs) => (Some err, c, fs)
    | (inr file, fs) =>
      match encoder_Encode file c fs with
      | (Some err, fs) => (Some err, c, fs)
      | (None, fs) =>
        let '(err, fs) := os_Rename file (Path c) fs in
        (err, c, fs)
      end
    end
  else (None, c, fs).

End Save.

(** ** The command [rmi]

    [runRmi] resolves each of its arguments to an image with
    [cmd.GetImage] and deletes the image through the API.  The methods
    of [Command] and of the API are not part of these sources: they
    are parameters acting on a world [W].  [PrintUsage],
    [PrintShortUsage] and [GetImage] may end the process instead of
    returning, which is [None] here. *)

(** How a run of a command ends: it returns, it exits with a status,
    or a callee ends the process. *)
Inductive ending : Type :=
| Returned
| ExitStatus (code : Z)
| EndedInCallee.

(** What a run of [runRmi] leaves: how it ended, the lines printed on
    the standard output, the failures logged by [log.Errorf] (image
    and error), and the world. *)
Record rmiRun (error W : Type) : Type := {
  rmiEnding : ending;
  rmiStdout : list string;
  rmiFailures : list (string * error);
  rmiWorld : W
}.

Arguments rmiEnding {error W} r.
Arguments rmiStdout {error W} r.
Arguments rmiFailures {error W} r.
Arguments rmiWorld {error W} r.

Section Rmi.

Context {error W : Type}.
Variable PrintUsage : W -> option W.
Variable PrintShortUsage : W -> option W.
Variable GetImage : string -> W -> option (string * W).
Variable DeleteImage : string -> W -> option error * W.

(** The loop over the arguments and the exit that follows it, from
    the state of the run so far. *)
Fixpoint rmiLoop (args : list string) (hasError : bool) (stdout : list string)
    (failures : list (string * error)) (w : W) : rmiRun error W :=
  match args with
  | [] =>
    {| rmiEnding := if hasError then ExitStatus 1 else Returned;
       rmiStdout := stdout; rmiFailures := failures; rmiWorld := w |}
  | needle :: args' =>
    match GetImage needle w with
    | None =>
      {| rmiEnding := EndedInCallee;
         rmiStdout := stdout; rmiFailures := failures; rmiWorld := w |}
    | Some (image, w) =>
      match DeleteImage image w with
      | (Some err, w) =>
        rmiLoop args' true stdout (failures ++ [(image, err)]) w
      | (None, w) =>
        rmiLoop args' hasError (stdout ++ [needle]) failures w
      end
    end
  end.

(** [runRmi], with the flag [rmiHelp] as an argument.  [log.Fatalf]
    exits with status 1. *)
Definition runRmi (rmiHelp : bool) (args : list string) (w : W) : rmiRun error W :=
  let stopped (w : W) :=
    {| rmiEnding := EndedInCallee; rmiStdout := []; rmiFailures := []; rmiWorld := w |} in
  match (if rmiHelp then PrintUsage w else Some w) with
  | None => stopped w
  | Some w =>
    match (if (length args <? 1)%nat then PrintShortUsage w else Some w) with
    | None => stopped w
    | Some w =>
      if (length args =? 0)%nat then
        {| rmiEnding := ExitStatus 1; rmiStdout := []; rmiFailures := [];
           rmiWorld := w |}
      else rmiLoop args false [] [] w
    end
  end.

End Rmi.

(** ** The endpoint check of the database instance tests

    [checkEndpoints] compares the kinds of endpoint that a created
    instance has with the kinds that a test expects, and complains
    through [t.Errorf] about each difference. *)

Definition publicEndpoint : string := "public".
Definition privateEndpointIpam : string := "private IPAM".
Definition privateEndpointStatic : string := "private static".

(** An endpoint of an instance, as far as [checkEndpoints] reads it:
    whether each of its two pointers is set. *)
Record Endpoint : Type := {
  LoadBalancer : bool;
  PrivateNetwork : bool
}.

(** The calls of [t.Errorf], by format. *)
Inductive complaint (error : Type) : Type :=
| CouldNotListIPs (err : error)
| TooManyIPs (totalCount : N)
| ExpectedEndpoint (e : string)
| UnexpectedEndpoint (e : string).

Arguments CouldNotListIPs {error} err.
Arguments TooManyIPs {error} totalCount.
Arguments ExpectedEndpoint {error} e.
Arguments UnexpectedEndpoint {error} e.

(** The order in which a [range] loop visits the keys of the map of
    found endpoints. *)
Record KeyOrder : Type := {
  visitKeys :> gmap string bool -> list string;
  visitKeys_perm : forall m, visitKeys m ≡ₚ (map_to_list m).*1
}.

Definition sortedKeys : KeyOrder :=
  {| visitKeys := fun m => (map_to_list m).*1;
     visitKeys_perm := fun m => reflexivity ((map_to_list m).*1) |}.

Section CheckEndpoints.

(** The IPAM API with its state [API]: a call of [ListIPs] gives the
    response with its total count, or nil ([None]), and an error or
    nil. *)
Context {error API : Type}.
Variable ListIPs : API -> (option N * option error) * API.
Variable ord : KeyOrder.

(** The body of the loop over the endpoints of the instance. *)
Definition findEndpoint (endpoint : Endpoint)
    (st : gmap string bool * list (complaint error) * API)
    : outcome (gmap string bool * list (complaint error) * API) :=
  let '(foundEndpoints, complaints, api) := st in
  let foundEndpoints :=
    if LoadBalancer endpoint then <[publicEndpoint := true]> foundEndpoints
    else foundEndpoints in
  if PrivateNetwork endpoint then
    let '(ips, err, api) := ListIPs api in
    let complaints :=
      match err with
      | Some e => complaints ++ [CouldNotListIPs e]
      | None => complaints
      end in
    match ips with
    | None => Panics (* ips.TotalCount of a nil response *)
    | Some totalCount =>
      if (totalCount =? 1)%N then
        Returns (<[privateEndpointIpam := true]> foundEndpoints, complaints, api)
      else if (totalCount =? 0)%N then
        Returns (<[privateEndpointStatic := true]> foundEndpoints, complaints, api)
      else Returns (foundEndpoints, complaints ++ [TooManyIPs totalCount], api)
    end
  else Returns (foundEndpoints, complaints, api).

Fixpoint findEndpoints (endpoints : list Endpoint)
    (st : gmap string bool * list (complaint error) * API)
    : outcome (gmap string bool * list (complaint error) * API) :=
  match endpoints with
  | [] => Returns st
  | endpoint :: endpoints' =>
    st ← findEndpoint endpoint st; findEndpoints endpoints' st
  end.

(** The loop over the expected endpoints. *)
Fixpoint checkExpected (expected : list string) (foundEndpoints : gmap string bool)
    (complaints : list (complaint error)) : gmap string bool * list (complaint error) :=
  match expected with
  | [] => (foundEndpoints, complaints)
  | e :: expected' =>
    let complaints :=
      match foundEndpoints !! e with
      | Some _ => complaints
      | None => complaints ++ [ExpectedEndpoint e]
      end in
    checkExpected expected' (delete e foundEndpoints) complaints
  end.

(** The loop over the endpoints that are left. *)
Definition checkUnexpected (foundEndpoints : gmap string bool)
    (complaints : list (complaint error)) : list (complaint error) :=
  if (0 <? size foundEndpoints)%nat then
    fold_left (fun complaints e => complaints ++ [UnexpectedEndpoint e])
              (ord foundEndpoints) complaints
  else complaints.

(** [checkEndpoints], from the endpoints of the created instance: the
    complaints made, in order, and the state of the API. *)
Definition checkEndpoints (endpoints : list Endpoint) (api : API)
    (expected : list string) : outcome (list (complaint error) * API) :=
  '(foundEndpoints, complaints, api) ← findEndpoints endpoints (∅, [], api);
  let '(foundEndpoints, complaints) := checkExpected expected foundEndpoints complaints in
  Returns (checkUnexpected foundEndpoints complaints, api).

End CheckEndpoints.

(** ** The look-up contract, in the words of the specification *)

Definition bytes (s : string) : list ascii := list_ascii_of_string s.

Definition isSeparator (c : ascii) : bool := isOneOf "_-" c.

(** The fields of a needle between its separators: the first one, and
    the others in order.  A field is empty where two separators meet
    or where the needle starts or ends with one. *)
Fixpoint fields (needle : string) : list ascii * list (list ascii) :=
  match needle with
  | EmptyString => ([], [])
  | String c rest =>
    let '(field, others) := fields rest in
    if isSeparator c then ([], field :: others) else (c :: field, others)
  end.

Definition nonEmpty (w : list ascii) : bool :=
  match w with
  | [] => false
  | _ :: _ => true
  end.

(** The maximal runs of non-separator characters of a needle. *)
Definition runs (needle : string) : list (list ascii) :=
  let '(field, others) := fields needle in
  List.filter nonEmpty (field :: others).

(** [w'] is [w] up to case: each character of [w] stands in [w'] as
    itself or as a rune that folds to it. *)
Fixpoint spells (w w' : list ascii) : Prop :=
  match w with
  | [] => w' = []
  | c :: w1 =>
    exists v w1', In v (regexp.foldVariants c) /\ w' = v ++ w1' /\ spells w1 w1'
  end.

(** The runs [rs] stand in [s] in order, each after a gap that [gapOK]
    admits; what follows the last one is free. *)
Fixpoint follow (gapOK : list ascii -> Prop) (rs : list (list ascii))
    (s : list ascii) : Prop :=
  match rs with
  | [] => True
  | r :: rs' =>
    exists gap w rest,
      s = gap ++ w ++ rest /\ gapOK gap /\ spells r w /\ follow gapOK rs' rest
  end.

(** The fuzzy pattern of a needle holds of a name: the runs of the
    needle stand in the name in order.  The text before the first run
    is [pre] with the first gap, so it is free whenever [gapOK] admits
    the empty gap. *)
Definition fuzzy (gapOK : list ascii -> Prop) (needle name : string) : Prop :=
  exists pre s, bytes name = pre ++ s /\ follow gapOK (runs needle) s.


Definition oneLine (gap : list ascii) : Prop := ~ In newline gap.

(** The identifier starts with the needle. *)
Definition literalPrefix (needle identifier : string) : Prop :=
  exists rest, identifier = needle +:+ rest.


(** The characters that the parser of [regexp] reads as themselves:
    ASCII, and none of the thirteen that start an operator, a class,
    a group or an escape. *)
Definition plainChar (c : ascii) : bool :=
  (byteVal c <? 128)%N && negb (isOneOf "\.+*?()|[{^$" c).

Definition plainNeedle (needle : string) : bool :=
  forallb plainChar (bytes needle).


Definition tagged (type : Z) (identifier : string) : ScalewayIdentifier :=
  {| Identifier := identifier; Type_ := type |}.


(** ** Auxiliary notions for the proofs *)

(** [decodes ok s s']: from [s], decoding one rune after the other,
    each with a first byte that [ok] admits, leaves [s']. *)
Inductive decodes (ok : ascii -> Prop) : list ascii -> list ascii -> Prop :=
| decodes_stop s : decodes ok s s
| decodes_step b t s' :
    ok b ->
    decodes ok (skipn (utf8.DecodeRuneWidth (b :: t)) (b :: t)) s' ->
    decodes ok (b :: t) s'.

(** What [.*] consumes: runes other than the line feed. *)
Definition dotStar : list ascii -> list ascii -> Prop :=
  decodes (fun b => b <> newline).

(** The rests of a text at which the unanchored search tries a match. *)
Definition runeSuffix : list ascii -> list ascii -> Prop :=
  decodes (fun _ => True).

(** The pieces that a plain needle compiles to. *)
Definition piece (c : ascii) : regexp.Regexp :=
  if isSeparator c then regexp.OpStar regexp.OpAnyCharNotNL
  else regexp.OpLiteral true c.

Definition pieces (needle : string) : list regexp.Regexp :=
  List.map piece (bytes needle).

(** What the pieces of a needle match at the head of a text, rune by
    rune ([matchesRunes]) and byte by byte ([matchesBytes]). *)
Fixpoint matchesRunes (needle : list ascii) (s : list ascii) : Prop :=
  match needle with
  | [] => True
  | c :: rest =>
    if isSeparator c then exists s', dotStar s s' /\ matchesRunes rest s'
    else exists v s', In v (regexp.foldVariants c) /\ s = v ++ s' /\ matchesRunes rest s'
  end.

Fixpoint matchesBytes (needle : list ascii) (s : list ascii) : Prop :=
  match needle with
  | [] => True
  | c :: rest =>
    if isSeparator c then
      exists gap s', s = gap ++ s' /\ oneLine gap /\ matchesBytes rest s'
    else exists v s', In v (regexp.foldVariants c) /\ s = v ++ s' /\ matchesBytes rest s'
  end.

(** The fields after the first, each behind a gap. *)
Fixpoint followFields (fs : list (list ascii)) (s : list ascii) : Prop :=
  match fs with
  | [] => True
  | f :: fs' =>
    exists gap w rest,
      s = gap ++ w ++ rest /\ oneLine gap /\ spells f w /\ followFields fs' rest
  end.

(** A position where the decoder of [utf8] never lands inside a rune:
    the end of the text, or a byte that is no continuation byte. *)
Definition atBoundary (s : list ascii) : Prop :=
  match s with
  | [] => True
  | b :: _ => utf8.isCont b = false
  end.

(** What an insertion into one collection promises: the pair is in
    the collection afterwards, the dirty flag is raised exactly when
    the pair was not there before, and a second call with the same
    pair changes nothing. *)
Definition insertContract (field : ScalewayCache -> gmap string string)
    (insert : string -> string -> ScalewayCache -> ScalewayCache) : Prop :=
  forall identifier name c,
    field (insert identifier name c) = <[identifier := name]> (field c) /\
    Modified (insert identifier name c) =
      Modified c || negb (bool_decide (field c !! identifier = Some name)) /\
    insert identifier name (insert identifier name c) = insert identifier name c.

(** The test of the look-ups' loop on one entry. *)
Definition matching (needle : string) (nameRegex : regexp.Regexp)
    (entry : string * string) : bool :=
  strings.HasPrefix entry.1 needle || regexp.MatchString nameRegex entry.2.


(** Caches of the examples. *)
Definition cacheWith (images servers bootscripts : gmap string string)
    : ScalewayCache :=
  {| Images := images; Snapshots := ∅; Bootscripts := bootscripts;
     Servers := servers; Path := ".scw-cache.db"; Modified := false |}.


(** What a removal from one collection promises: the identifier is
    not in the collection afterwards, the other entries stay, a
    removal of an absent identifier leaves the collection as it was,
    and the dirty flag is raised in every case. *)
Definition removeContract (field : ScalewayCache -> gmap string string)
    (remove : string -> ScalewayCache -> ScalewayCache) : Prop :=
  forall identifier c,
    field (remove identifier c) !! identifier = None /\
    (forall other, other <> identifier ->
       field (remove identifier c) !! other = field c !! other) /\
    (field c !! identifier = None -> field (remove identifier c) = field c) /\
    Modified (remove identifier c) = true.

(** What the count of one collection does under its three mutators. *)
Definition countContract (field : ScalewayCache -> gmap string string)
    (count : ScalewayCache -> nat)
    (insert : string -> string -> ScalewayCache -> ScalewayCache)
    (remove : string -> ScalewayCache -> ScalewayCache)
    (clear : ScalewayCache -> ScalewayCache) : Prop :=
  forall identifier name c,
    count (insert identifier name c) =
      (if bool_decide (is_Some (field c !! identifier)) then count c else S (count c)) /\
    count (remove identifier c) =
      (if bool_decide (is_Some (field c !! identifier)) then pred (count c) else count c) /\
    count (clear c) = 0 /\
    (count c = 0 <-> field c = ∅).




(** A needle made of separators only. *)
Definition separatorsOnly (needle : string) : bool :=
  forallb isSeparator (bytes needle).

(** [b] is [a] or its other case. *)
Definition foldsTo (a b : ascii) : Prop := In [b] (regexp.foldVariants a).

(** Two strings of the same length that differ by the case of their
    letters only. *)
Definition sameUpToCase (s1 s2 : string) : Prop :=
  Forall2 foldsTo (bytes s1) (bytes s2).

(** * Properties *)

(** ** Mutators *)

Lemma insert_guard (m : gmap string string) identifier name :
  (let '(currentName, exists_) := index2 m identifier in
   negb exists_ || negb (String.eqb currentName name)) =
  negb (bool_decide (m !! identifier = Some name)).
Proof.
  unfold index2. destruct (m !! identifier) as [v|] eqn:E.
  - destruct (String.eqb_spec v name) as [->|Hne]; case_bool_decide; simpl; congruence.
  - case_bool_decide; simpl; congruence.
Qed.

Lemma InsertServer_eq identifier name c :
  InsertServer identifier name c =
  if bool_decide (Servers c !! identifier = Some name) then c
  else withModified true (withServers (<[identifier := name]> (Servers c)) c).
Proof.
  unfold InsertServer. pose proof (insert_guard (Servers c) identifier name) as H.
  destruct (index2 (Servers c) identifier) as [cur ex]. rewrite H.
  by destruct (bool_decide _).
Qed.

Lemma InsertImage_eq identifier name c :
  InsertImage identifier name c =
  if bool_decide (Images c !! identifier = Some name) then c
  else withModified true (withImages (<[identifier := name]> (Images c)) c).
Proof.
  unfold InsertImage. pose proof (insert_guard (Images c) identifier name) as H.
  destruct (index2 (Images c) identifier) as [cur ex]. rewrite H.
  by destruct (bool_decide _).
Qed.

Lemma InsertSnapshot_eq identifier name c :
  InsertSnapshot identifier name c =
  if bool_decide (Snapshots c !! identifier = Some name) then c
  else withModified true (withSnapshots (<[identifier := name]> (Snapshots c)) c).
Proof.
  unfold InsertSnapshot. pose proof (insert_guard (Snapshots c) identifier name) as H.
  destruct (index2 (Snapshots c) identifier) as [cur ex]. rewrite H.
  by destruct (bool_decide _).
Qed.

Lemma InsertBootscript_eq identifier name c :
  InsertBootscript identifier name c =
  if bool_decide (Bootscripts c !! identifier = Some name) then c
  else withModified true (withBootscripts (<[identifier := name]> (Bootscripts c)) c).
Proof.
  unfold InsertBootscript. pose proof (insert_guard (Bootscripts c) identifier name) as H.
  destruct (index2 (Bootscripts c) identifier) as [cur ex]. rewrite H.
  by destruct (bool_decide _).
Qed.

(** An insertion that is given by such an equation, for a field that
    [with_] sets and the flag does not touch, keeps the contract. *)
Lemma insertContract_intro field with_ insert :
  (forall m c, field (withModified true (with_ m c)) = m) ->
  (forall m c, Modified (withModified true (with_ m c)) = true) ->
  (forall identifier name c,
     insert identifier name c =
     if bool_decide (field c !! identifier = Some name) then c
     else withModified true (with_ (<[identifier := name]> (field c)) c)) ->
  insertContract field insert.
Proof.
  intros Hfield Hflag Heq identifier name c.
  rewrite (Heq identifier name c).
  destruct (decide (field c !! identifier = Some name)) as [H|H].
  - rewrite !bool_decide_eq_true_2 by done. rewrite Heq.
    rewrite bool_decide_eq_true_2 by done.
    split_and!; [by rewrite insert_id | by rewrite orb_false_r | done].
  - rewrite !bool_decide_eq_false_2 by done. rewrite Heq, Hfield, Hflag.
    rewrite bool_decide_eq_true_2 by apply lookup_insert_eq.
    split_and!; [done | by rewrite orb_true_r | done].
Qed.

(** C4.  For each of the four categories, Insert puts the pair into
    the collection and raises the dirty flag exactly when the
    identifier was absent or had another name; calling it again with
    the same pair leaves the cache, and so its dirty flag, as the
    first call left it. *)
Theorem Insert_marks_dirty_only_on_change :
  insertContract Servers InsertServer /\
  insertContract Images InsertImage /\
  insertContract Snapshots InsertSnapshot /\
  insertContract Bootscripts InsertBootscript.
Proof.
  split_and!.
  - apply (insertContract_intro Servers withServers); auto using InsertServer_eq.
  - apply (insertContract_intro Images withImages); auto using InsertImage_eq.
  - apply (insertContract_intro Snapshots withSnapshots); auto using InsertSnapshot_eq.
  - apply (insertContract_intro Bootscripts withBootscripts); auto using InsertBootscript_eq.
Qed.

(** C8.  ClearSnapshots empties the Snapshots collection and raises
    the dirty flag whatever it was, and leaves the Servers, Images
    and Bootscripts collections as they were; so does each of the
    other three Clear operations for its own category. *)
Theorem Clear_empties_its_category_only (c : ScalewayCache) :
  (Snapshots (ClearSnapshots c) = ∅ /\ Modified (ClearSnapshots c) = true /\
   Servers (ClearSnapshots c) = Servers c /\
   Images (ClearSnapshots c) = Images c /\
   Bootscripts (ClearSnapshots c) = Bootscripts c) /\
  (Servers (ClearServers c) = ∅ /\ Modified (ClearServers c) = true /\
   Images (ClearServers c) = Images c /\
   Snapshots (ClearServers c) = Snapshots c /\
   Bootscripts (ClearServers c) = Bootscripts c) /\
  (Images (ClearImages c) = ∅ /\ Modified (ClearImages c) = true /\
   Servers (ClearImages c) = Servers c /\
   Snapshots (ClearImages c) = Snapshots c /\
   Bootscripts (ClearImages c) = Bootscripts c) /\
  (Bootscripts (ClearBootscripts c) = ∅ /\ Modified (ClearBootscripts c) = true /\
   Servers (ClearBootscripts c) = Servers c /\
   Images (ClearBootscripts c) = Images c /\
   Snapshots (ClearBootscripts c) = Snapshots c).
Proof. repeat split. Qed.

(** ** Saving and loading *)

Section SaveFacts.

Context {error FS : Type}.
Variable ioutil_TempFile : FS -> (error + string) * FS.
Variable encoder_Encode : string -> ScalewayCache -> FS -> option error * FS.
Variable os_Rename : string -> string -> FS -> option error * FS.

(** C9.  Whatever the file system answers, the cache that Save
    leaves is the cache it was given: the dirty flag and the four
    collections keep their values, so a dirty cache is still dirty
    after a save, successful or not. *)
Theorem Save_keeps_the_dirty_flag (c : ScalewayCache) (fs : FS) :
  let after := (Save ioutil_TempFile encoder_Encode os_Rename c fs).1.2 in
  after = c /\
  Modified after = Modified c /\
  Servers after = Servers c /\ Images after = Images c /\
  Snapshots after = Snapshots c /\ Bootscripts after = Bootscripts c.
Proof.
  assert ((Save ioutil_TempFile encoder_Encode os_Rename c fs).1.2 = c) as H.
  { unfold Save. destruct (Modified c); [|done].
    destruct (ioutil_TempFile fs) as [[err|file] fs1]; [done|].
    destruct (encoder_Encode file c fs1) as [[err|] fs2]; [done|].
    by destruct (os_Rename file (Path c) fs2). }
  simpl. by rewrite H.
Qed.

End SaveFacts.

(** A dirty cache whose save succeeds is dirty afterwards: here every
    step succeeds and the file system records the renamed file. *)
Example Save_success_stays_dirty :
  let c := {| Images := ∅; Snapshots := ∅; Bootscripts := ∅;
              Servers := {["id" := "name"]}; Path := "db"; Modified := true |} in
  let r := Save (error := unit) (fun fs : list string => (inr "tmp", fs))
                (fun _ _ fs => (None, fs))
                (fun _ new fs => (None, new :: fs)) c [] in
  r.1.1 = None /\ r.2 = ["db"] /\ Modified r.1.2 = true.
Proof. repeat split. Qed.

Section LoadFacts.

Context {error : Type}.
Variable os_Getenv : string -> string.
Variable filepath_Join : string -> string -> string.
Variable os_Stat : string -> option error.
Variable os_IsNotExist : error -> bool.
Variable ioutil_ReadFile : string -> error + string.
Variable json_Unmarshal : string -> error + decodedCache.

Local Abbreviation path := (cachePath os_Getenv filepath_Join).
Local Abbreviation load :=
  (NewScalewayCache os_Getenv filepath_Join os_Stat os_IsNotExist
                    ioutil_ReadFile json_Unmarshal).


End LoadFacts.


(** ** Look-ups *)

Module LookUpFacts.

Import regexp.

(** *** The loop *)
Lemma rangeMatching_from needle re entries acc :
  fold_left
    (fun res '(identifier, name) =>
       if strings.HasPrefix identifier needle || regexp.MatchString re name
       then res ++ [identifier]
       else res)
    entries acc = acc ++ (List.filter (matching needle re) entries).*1.
Proof.
  revert acc. induction entries as [|[i n] entries IH]; intros acc; simpl.
  - by rewrite app_nil_r.
  - rewrite IH. unfold matching at 2. simpl.
    destruct (strings.HasPrefix i needle || regexp.MatchString re n); simpl; [|done].
    by rewrite <- app_assoc.
Qed.

Lemma rangeMatching_filter needle re entries :
  rangeMatching needle re entries = (List.filter (matching needle re) entries).*1.
Proof. unfold rangeMatching. by rewrite rangeMatching_from. Qed.

Lemma rangeMatching_elem (ord : RangeOrder) needle re (m : gmap string string) i :
  i ∈ rangeMatching needle re (ord m) <->
  exists n, m !! i = Some n /\ (strings.HasPrefix i needle = true \/ regexp.MatchString re n = true).
Proof.
  rewrite rangeMatching_filter, list_elem_of_fmap. split.
  - intros ([i' n] & -> & Hin). apply list_elem_of_In, filter_In in Hin as [Hin Hm].
    apply list_elem_of_In in Hin. rewrite (visit_perm ord m) in Hin.
    apply elem_of_map_to_list in Hin. exists n. split; [done|].
    unfold matching in Hm. simpl in Hm. by apply orb_true_iff in Hm.
  - intros (n & Hn & Hm). exists (i, n). split; [done|].
    apply list_elem_of_In, filter_In. split.
    + apply list_elem_of_In. rewrite (visit_perm ord m). by apply elem_of_map_to_list.
    + unfold matching. simpl. by apply orb_true_iff.
Qed.



Lemma HasPrefix_empty i : strings.HasPrefix i EmptyString = true.
Proof. unfold strings.HasPrefix. by destruct i. Qed.

Lemma filter_all {A} (f : A -> bool) l : (forall x, f x = true) -> List.filter f l = l.
Proof. intros H. induction l as [|x l IH]; simpl; [done|]. by rewrite H, IH. Qed.

Lemma LookUp_empty_needle (ord : RangeOrder) re m :
  rangeMatching EmptyString re (ord m) ≡ₚ (map_to_list m).*1.
Proof.
  rewrite rangeMatching_filter, filter_all.
  - by rewrite (visit_perm ord m).
  - intros [i n]. unfold matching. simpl. by rewrite HasPrefix_empty.
Qed.

Lemma compile_empty : regexp.MustCompile ("(?i)" +:+ replaceSeparators EmptyString) = Returns regexp.OpEmptyMatch.
Proof. reflexivity. Qed.


Lemma trimPrefix_None p s : regexp.trimPrefix p s = None <-> String.prefix p s = false.
Proof.
  revert s. induction p as [|a p IH]; intros [|b s]; simpl; try done.
  destruct (Ascii.eqb_spec a b) as [->|Hne].
  - destruct (ascii_dec b b); [apply IH|done].
  - destruct (ascii_dec a b); [done|done].
Qed.

Lemma stripUserPrefix_id s : strings.HasPrefix s "user/" = false -> stripUserPrefix s = s.
Proof.
  intros H. unfold stripUserPrefix. apply trimPrefix_None in H. by rewrite H.
Qed.

(** *** Parsing the pattern of a plain needle *)
Lemma isOneOf_cons a s c : isOneOf (String a s) c = Ascii.eqb c a || isOneOf s c.
Proof. reflexivity. Qed.

Lemma isOneOf_nil c : isOneOf EmptyString c = false.
Proof. reflexivity. Qed.

Lemma plainChar_classify c : plainChar c = true -> classify c = TLiteral.
Proof.
  unfold plainChar, classify. intros [Hlt Hmeta]%andb_true_iff.
  apply negb_true_iff in Hmeta. rewrite !isOneOf_cons, isOneOf_nil in Hmeta.
  repeat (apply orb_false_iff in Hmeta as [? Hmeta]).
  rewrite !isOneOf_cons, isOneOf_nil.
  apply N.ltb_lt in Hlt.
  replace (128 <=? byteVal c)%N with false by (symmetry; apply N.leb_gt; done).
  repeat match goal with H : Ascii.eqb c _ = false |- _ => rewrite H; clear H end.
  reflexivity.
Qed.

Lemma plainChar_not_quest c : plainChar c = true -> Ascii.eqb c "?" = false.
Proof.
  intros H%plainChar_classify. unfold classify in H.
  destruct (Ascii.eqb c "?"); [|done].
  repeat match type of H with (if ?b then _ else _) = _ => destruct b; try discriminate end.
Qed.

Lemma replaceSeparators_head needle :
  plainNeedle needle = true ->
  match replaceSeparators needle with
  | String c1 _ => Ascii.eqb c1 "?" = false
  | EmptyString => True
  end.
Proof.
  destruct needle as [|c rest]; simpl; [done|].
  unfold plainNeedle, bytes. simpl. intros [Hc _]%andb_true_iff.
  destruct (isOneOf "_-" c); [done|]. by apply plainChar_not_quest.
Qed.

Lemma parse_pieces needle : forall cur lr,
  plainNeedle needle = true ->
  parse true (replaceSeparators needle) cur [] lr =
  Compiled (alternate (Frame (alts cur) (rev (pieces needle) ++ seq cur))).
Proof.
  induction needle as [|c rest IH]; intros cur lr Hplain.
  - simpl. by destruct cur.
  - assert (plainChar c = true /\ plainNeedle rest = true) as [Hc Hrest].
    { unfold plainNeedle, bytes in *. simpl in Hplain. by apply andb_true_iff in Hplain. }
    replace (rev (pieces (String c rest)) ++ seq cur)
      with (rev (pieces rest) ++ piece c :: seq cur)
      by (change (pieces (String c rest)) with (piece c :: pieces rest);
          simpl; by rewrite <- app_assoc).
    unfold piece, isSeparator.
    simpl replaceSeparators. destruct (isOneOf "_-" c) eqn:Hsep.
    + change (parse true (String "." (String "*" (replaceSeparators rest))) cur [] lr)
        with (match replaceSeparators rest with
              | String c1 t2 =>
                if Ascii.eqb c1 "?"
                then parse true t2 (Frame (alts (push OpAnyCharNotNL cur)) (OpStar OpAnyCharNotNL :: seq cur)) [] true
                else parse true (replaceSeparators rest) (Frame (alts (push OpAnyCharNotNL cur)) (OpStar OpAnyCharNotNL :: seq cur)) [] true
              | EmptyString =>
                parse true (replaceSeparators rest) (Frame (alts (push OpAnyCharNotNL cur)) (OpStar OpAnyCharNotNL :: seq cur)) [] true
              end).
      pose proof (replaceSeparators_head rest Hrest) as Hhead.
      pose proof (IH (Frame (alts (push OpAnyCharNotNL cur))
                            (OpStar OpAnyCharNotNL :: seq cur)) true Hrest) as IH'.
      destruct (replaceSeparators rest) as [|c1 t2] eqn:Hr.
      * exact IH'.
      * rewrite Hhead. exact IH'.
    + simpl parse. rewrite (plainChar_classify c Hc). rewrite IH by done. reflexivity.
Qed.

Lemma Compile_plain needle :
  plainNeedle needle = true ->
  Compile ("(?i)" +:+ replaceSeparators needle) = Compiled (mkConcat (pieces needle)).
Proof.
  intros H. change (Compile ("(?i)" +:+ replaceSeparators needle))
    with (parse true (replaceSeparators needle) emptyFrame [] false).
  rewrite parse_pieces by done. simpl. rewrite app_nil_r.
  unfold alternate, concat. simpl. by rewrite rev_involutive.
Qed.

(** *** The rune decoder *)
Lemma inRange_spec lo hi c : inRange lo hi c = true <-> (lo <= byteVal c <= hi)%N.
Proof. unfold inRange. rewrite andb_true_iff, !N.leb_le. done. Qed.

Lemma acceptSecond_cont b0 b1 : utf8.acceptSecond b0 b1 = true -> utf8.isCont b1 = true.
Proof.
  unfold utf8.acceptSecond, utf8.isCont.
  repeat match goal with |- context [if ?b then _ else _] => destruct b end;
    rewrite !inRange_spec; lia.
Qed.

Lemma width_pos b t : (1 <= utf8.DecodeRuneWidth (b :: t))%nat.
Proof.
  unfold utf8.DecodeRuneWidth.
  repeat match goal with
         | |- context [if ?b then _ else _] => destruct b
         | |- context [match ?l with [] => _ | _ :: _ => _ end] => destruct l
         end; lia.
Qed.

Lemma width_le s : (utf8.DecodeRuneWidth s <= length s)%nat.
Proof.
  unfold utf8.DecodeRuneWidth.
  repeat match goal with
         | |- context [if ?b then _ else _] => destruct b
         | |- context [match ?l with [] => _ | _ :: _ => _ end] => destruct l
         end; simpl; lia.
Qed.

Lemma width_cont s i :
  (1 <= i < utf8.DecodeRuneWidth s)%nat ->
  exists b, s !! i = Some b /\ utf8.isCont b = true.
Proof.
  unfold utf8.DecodeRuneWidth.
  destruct s as [|b0 t]; [lia|].
  destruct (byteVal b0 <? 128)%N; [lia|].
  destruct (inRange 194 223 b0).
  { destruct t as [|b1 t]; [lia|]. destruct (utf8.acceptSecond b0 b1) eqn:H1; [|lia].
    intros Hi. assert (i = 1)%nat as -> by lia. eauto using acceptSecond_cont. }
  destruct (inRange 224 239 b0).
  { destruct t as [|b1 [|b2 t]]; [lia..|].
    destruct (utf8.acceptSecond b0 b1) eqn:H1; [|simpl; lia].
    destruct (utf8.isCont b2) eqn:H2; [|simpl; lia]. simpl.
    intros Hi. assert (i = 1 \/ i = 2)%nat as [-> | ->] by lia; eauto using acceptSecond_cont. }
  destruct (inRange 240 244 b0); [|lia].
  destruct t as [|b1 [|b2 [|b3 t]]]; [lia..|].
  destruct (utf8.acceptSecond b0 b1) eqn:H1; [|simpl; lia].
  destruct (utf8.isCont b2) eqn:H2; [|simpl; lia].
  destruct (utf8.isCont b3) eqn:H3; [|simpl; lia]. simpl.
  intros Hi. assert (i = 1 \/ i = 2 \/ i = 3)%nat as [-> | [-> | ->]] by lia;
    eauto using acceptSecond_cont.
Qed.

Lemma decodes_suffix ok s s' : decodes ok s s' -> exists g, s = g ++ s'.
Proof.
  induction 1 as [s|b t s' Hb _ [g Hg]].
  - by exists [].
  - exists (take (utf8.DecodeRuneWidth (b :: t)) (b :: t) ++ g).
    rewrite <- app_assoc, <- Hg. by rewrite take_drop.
Qed.

Lemma rune_bytes b t x :
  In x (take (utf8.DecodeRuneWidth (b :: t)) (b :: t)) -> x = b \/ utf8.isCont x = true.
Proof.
  intros Hin%list_elem_of_In%list_elem_of_lookup. destruct Hin as [i Hi].
  apply lookup_take_Some in Hi as [Hi Hlt].
  destruct i as [|i]; [left; by injection Hi|]. right.
  destruct (width_cont (b :: t) (S i)) as (y & Hy & Hc); [lia|]. congruence.
Qed.

Lemma dotStar_gap s s' : dotStar s s' -> exists g, s = g ++ s' /\ oneLine g.
Proof.
  induction 1 as [s|b t s' Hb _ (g & Hg & Hone)].
  - exists []. split; [done|]. intros [].
  - exists (take (utf8.DecodeRuneWidth (b :: t)) (b :: t) ++ g). split.
    + rewrite <- app_assoc, <- Hg. by rewrite take_drop.
    + intros [Hin|Hin]%in_app_or; [|done].
      apply rune_bytes in Hin as [Heq|Hc]; [congruence|]. discriminate Hc.
Qed.

Lemma decodes_boundary (ok : ascii -> Prop) g : forall s',
  atBoundary s' -> (forall x, In x g -> ok x) -> decodes ok (g ++ s') s'.
Proof.
  induction g as [g IH] using (induction_ltof1 _ (@length ascii)). unfold ltof in IH.
  intros s' Hb Hok. destruct g as [|b g]; [constructor|].
  simpl. assert (utf8.DecodeRuneWidth (b :: g ++ s') <= length (b :: g))%nat as Hw.
  { destruct (le_lt_dec (utf8.DecodeRuneWidth (b :: g ++ s')) (length (b :: g))) as [|Hgt]; [done|].
    exfalso. destruct (width_cont (b :: g ++ s') (length (b :: g))) as (y & Hy & Hc).
    { simpl. simpl in Hgt. lia. }
    change (b :: g ++ s') with ((b :: g) ++ s') in Hy.
    rewrite lookup_app_r in Hy by lia. rewrite Nat.sub_diag in Hy.
    destruct s' as [|y' s']; [done|]. simpl in Hy, Hb. congruence. }
  pose proof (width_pos b (g ++ s')) as Hpos.
  apply decodes_step; [apply Hok; by left|].
  assert (drop (utf8.DecodeRuneWidth (b :: g ++ s')) (b :: g ++ s') =
          drop (utf8.DecodeRuneWidth (b :: g ++ s')) (b :: g) ++ s') as ->
    by (apply (drop_app_le (b :: g) s'); done).
  apply IH; [|done|].
  - rewrite length_drop. simpl length. lia.
  - intros x Hx. apply Hok. apply list_elem_of_In. apply list_elem_of_In in Hx.
    eapply elem_of_sublist; [exact Hx|apply sublist_drop].
Qed.

(** *** The matcher *)
Lemma trimBytes_Some v s s' : trimBytes v s = Some s' <-> s = v ++ s'.
Proof.
  revert s. induction v as [|a v IH]; intros s; simpl.
  - split; congruence.
  - destruct s as [|b s]; [done|].
    destruct (Ascii.eqb_spec a b) as [->|Hne].
    + rewrite IH. split; congruence.
    + split; [done|]. congruence.
Qed.

Lemma matchK_literal c s k :
  matchK (OpLiteral true c) s k = true <->
  exists v s', In v (foldVariants c) /\ s = v ++ s' /\ k s' = true.
Proof.
  simpl. rewrite existsb_exists. split.
  - intros (v & Hv & Hm). destruct (trimBytes v s) as [s'|] eqn:Ht; [|done].
    apply trimBytes_Some in Ht. eauto.
  - intros (v & s' & Hv & Hs & Hk). exists v. split; [done|].
    apply trimBytes_Some in Hs. by rewrite Hs.
Qed.

Lemma iterate_dotStar k fuel : forall s,
  (length s <= fuel)%nat ->
  iterate (matchK OpAnyCharNotNL) k fuel s = true <->
  exists s', dotStar s s' /\ k s' = true.
Proof.
  induction fuel as [|fuel IH]; intros s Hlen.
  - destruct s; [|simpl in Hlen; lia]. simpl. rewrite orb_false_r. split.
    + intros Hk. exists []. split; [constructor|done].
    + intros (s' & Hd & Hk). by inversion Hd; subst.
  - simpl. rewrite orb_true_iff. split.
    + intros [Hk|Hm]; [exists s; split; [constructor|done]|].
      destruct s as [|b t]; [done|].
      destruct (Ascii.eqb_spec b newline) as [|Hnl]; [done|].
      apply andb_true_iff in Hm as [Hlt Hm].
      apply IH in Hm as (s' & Hd & Hk).
      * exists s'. split; [|done]. by constructor.
      * apply Nat.ltb_lt in Hlt. lia.
    + intros (s' & Hd & Hk). inversion Hd as [|b t s'' Hb Hd']; subst; [by left|].
      right. destruct (Ascii.eqb_spec b newline) as [|_]; [done|].
      pose proof (width_pos b t). 
      assert (length (drop (utf8.DecodeRuneWidth (b :: t)) (b :: t)) < length (b :: t))%nat as Hlt.
      { rewrite length_drop. simpl length. lia. }
      apply andb_true_iff. split; [by apply Nat.ltb_lt|].
      apply IH; [lia|]. eauto.
Qed.

Lemma matchK_dotStar s k :
  matchK (OpStar OpAnyCharNotNL) s k = true <-> exists s', dotStar s s' /\ k s' = true.
Proof. simpl. by apply iterate_dotStar. Qed.

Lemma matchK_mkConcat_cons r rs s k :
  matchK (mkConcat (r :: rs)) s k = matchK r s (fun s' => matchK (mkConcat rs) s' k).
Proof. destruct rs; reflexivity. Qed.

Lemma matchK_pieces l : forall s,
  matchK (mkConcat (List.map piece l)) s (fun _ => true) = true <-> matchesRunes l s.
Proof.
  induction l as [|c l IH]; intros s; [done|].
  change (List.map piece (c :: l)) with (piece c :: List.map piece l).
  rewrite matchK_mkConcat_cons. simpl matchesRunes. unfold piece.
  destruct (isSeparator c).
  - rewrite matchK_dotStar. by setoid_rewrite IH.
  - rewrite matchK_literal. by setoid_rewrite IH.
Qed.

(** *** The unanchored search *)
Lemma searchFrom_skip re n : forall s,
  (n <= length s)%nat -> searchFrom re n s = searchFrom re 0 (drop n s).
Proof.
  induction n as [|n IH]; intros s Hn; [done|].
  destruct s as [|b s]; [simpl in Hn; lia|]. simpl in Hn. 
  change (searchFrom re (S n) (b :: s)) with (searchFrom re n s).
  rewrite IH by lia. done.
Qed.

Lemma searchFrom_spec re fuel : forall s,
  (length s <= fuel)%nat ->
  searchFrom re 0 s = true <->
  exists s', runeSuffix s s' /\ matchK re s' (fun _ => true) = true.
Proof.
  induction fuel as [|fuel IH]; intros s Hlen.
  - destruct s; [|simpl in Hlen; lia]. simpl. rewrite orb_false_r. split.
    + intros H. exists []. split; [constructor|done].
    + intros (s' & Hd & H). by inversion Hd; subst.
  - destruct s as [|b t].
    { simpl. rewrite orb_false_r. split.
      + intros H. exists []. split; [constructor|done].
      + intros (s' & Hd & H). by inversion Hd; subst. }
    pose proof (width_pos b t) as Hpos. pose proof (width_le (b :: t)) as Hle.
    simpl length in Hlen, Hle.
    change (searchFrom re 0 (b :: t))
      with (matchK re (b :: t) (fun _ => true) ||
            searchFrom re (utf8.DecodeRuneWidth (b :: t) - 1) t).
    rewrite searchFrom_skip by lia.
    replace (drop (utf8.DecodeRuneWidth (b :: t) - 1) t)
      with (drop (utf8.DecodeRuneWidth (b :: t)) (b :: t)).
    2:{ destruct (utf8.DecodeRuneWidth (b :: t)) as [|w]; [lia|]. simpl.
        by rewrite Nat.sub_0_r. }
    rewrite orb_true_iff, IH.
    2:{ rewrite length_drop. simpl length. lia. }
    split.
    + intros [H|(s' & Hd & H)].
      * exists (b :: t). split; [constructor|done].
      * exists s'. split; [|done]. by constructor.
    + intros (s' & Hd & H). inversion Hd as [|b' t' s'' _ Hd']; subst; [by left|].
      right. eauto.
Qed.

Lemma MatchString_spec re name :
  MatchString re name = true <->
  exists s', runeSuffix (bytes name) s' /\ matchK re s' (fun _ => true) = true.
Proof. unfold MatchString. by apply (searchFrom_spec re (length (bytes name))). Qed.


(** *** Rune by rune and byte by byte *)
Lemma oneLine_nil : oneLine [].
Proof. intros []. Qed.

Lemma oneLine_app g1 g2 : oneLine g1 -> oneLine g2 -> oneLine (g1 ++ g2).
Proof. unfold oneLine. intros H1 H2 [H|H]%in_app_or; auto. Qed.

Lemma matchesRunes_bytes l : forall s, matchesRunes l s -> matchesBytes l s.
Proof.
  induction l as [|c l IH]; intros s; [done|]. simpl.
  destruct (isSeparator c).
  - intros (s' & Hd & Hm). apply dotStar_gap in Hd as (g & -> & Hg).
    exists g, s'. auto.
  - intros (v & s' & Hv & -> & Hm). exists v, s'. auto.
Qed.

Lemma plainChar_not_cont c : plainChar c = true -> utf8.isCont c = false.
Proof.
  unfold plainChar, utf8.isCont, inRange. intros [Hlt _]%andb_true_iff.
  apply N.ltb_lt in Hlt. apply andb_false_iff. left. apply N.leb_gt. lia.
Qed.

Lemma foldVariants_boundary c v s :
  plainChar c = true -> In v (foldVariants c) -> atBoundary (v ++ s).
Proof.
  intros Hc. pose proof (plainChar_not_cont c Hc) as Hnc.
  unfold foldVariants.
  assert (isUpper c || isLower c = true -> utf8.isCont (swapCase c) = false) as Hswap.
  { unfold swapCase, isUpper, isLower. intros H.
    destruct (inRange 65 90 c) eqn:Hu.
    - apply inRange_spec in Hu. unfold utf8.isCont, inRange, byteVal in *.
      rewrite N_ascii_embedding by lia. apply andb_false_iff. left. apply N.leb_gt. lia.
    - simpl in H. rewrite H. apply inRange_spec in H.
      unfold utf8.isCont, inRange, byteVal in *.
      rewrite N_ascii_embedding by lia. apply andb_false_iff. left. apply N.leb_gt. lia. }
  destruct (isUpper c || isLower c).
  - intros [<-|[<-|Hin]]; [done|by apply Hswap|].
    destruct (isOneOf "kK" c); [destruct Hin as [<-|[]]; reflexivity|].
    destruct (isOneOf "sS" c); [destruct Hin as [<-|[]]; reflexivity|destruct Hin].
  - intros [<-|[]]. done.
Qed.

Lemma matchesBytes_runes l :
  Forall (fun c => plainChar c = true) l ->
  (forall s, matchesBytes l s -> matchesRunes l s) /\
  (forall g s', oneLine g -> matchesBytes l s' ->
     exists s'', dotStar (g ++ s') s'' /\ matchesRunes l s'').
Proof.
  induction 1 as [|c l Hc Hl [IH1 IH2]].
  - split; [done|]. intros g s' _ _. exists (g ++ s'). split; [constructor|done].
  - simpl. destruct (isSeparator c) eqn:Hsep.
    + split.
      * intros s (gap & s' & -> & Hg & Hm). by apply IH2.
      * intros g s' Hg (gap & s2 & -> & Hgap & Hm).
        exists (g ++ gap ++ s2). split; [constructor|].
        rewrite app_assoc. apply IH2; [by apply oneLine_app|done].
    + split.
      * intros s (v & s' & Hv & -> & Hm). eauto 6.
      * intros g s' Hg (v & s2 & Hv & -> & Hm).
        exists (v ++ s2). split; [|eauto 6].
        apply decodes_boundary; [by eapply foldVariants_boundary|].
        intros x Hx ->. by apply Hg.
Qed.

Lemma matchesBytes_found l :
  Forall (fun c => plainChar c = true) l ->
  forall pre s1, matchesBytes l s1 ->
    exists s', runeSuffix (pre ++ s1) s' /\ matchesRunes l s'.
Proof.
  induction 1 as [|c l Hc Hl IH]; intros pre s1.
  - intros _. exists (pre ++ s1). split; [constructor|done].
  - intros Hm. pose proof Hm as Hm'. simpl in Hm. destruct (isSeparator c) eqn:Hsep.
    + destruct Hm as (gap & s2 & -> & Hgap & Hm).
      destruct (IH (pre ++ gap) s2 Hm) as (s' & Hs & Hr).
      exists s'. rewrite app_assoc. split; [done|]. simpl. rewrite Hsep.
      exists s'. split; [constructor|done].
    + destruct Hm as (v & s2 & Hv & -> & Hm).
      exists (v ++ s2). split.
      * apply decodes_boundary; [by eapply foldVariants_boundary|done].
      * apply matchesBytes_runes; [by constructor|done].
Qed.

Lemma plainNeedle_Forall needle :
  plainNeedle needle = true -> Forall (fun c => plainChar c = true) (bytes needle).
Proof.
  unfold plainNeedle. intros H. apply Forall_forall. intros x Hx%list_elem_of_In.
  by apply (proj1 (forallb_forall plainChar (bytes needle)) H).
Qed.

Lemma MatchString_pieces needle name :
  plainNeedle needle = true ->
  MatchString (mkConcat (pieces needle)) name = true <->
  exists pre s, bytes name = pre ++ s /\ matchesBytes (bytes needle) s.
Proof.
  intros Hplain%plainNeedle_Forall. rewrite MatchString_spec. unfold pieces.
  setoid_rewrite matchK_pieces. split.
  - intros (s' & Hs & Hm). apply decodes_suffix in Hs as [pre Hpre].
    exists pre, s'. split; [done|]. by apply matchesRunes_bytes.
  - intros (pre & s & -> & Hm). by apply matchesBytes_found.
Qed.

(** *** Fields and runs *)
Lemma matchesBytes_fields needle : forall s,
  matchesBytes (bytes needle) s <->
  exists w s', s = w ++ s' /\ spells (fields needle).1 w /\ followFields (fields needle).2 s'.
Proof.
  induction needle as [|c rest IH]; intros s.
  - simpl. split; [|done]. intros _. by exists [], s.
  - change (bytes (String c rest)) with (c :: bytes rest). simpl.
    destruct (fields rest) as [f fs] eqn:Hf. simpl in IH.
    destruct (isSeparator c); simpl.
    + split.
      * intros (gap & s1 & -> & Hg & (w & s' & -> & Hw & Hfs)%IH).
        exists [], (gap ++ w ++ s'). split_and!; [done..|]. by exists gap, w, s'.
      * intros (w0 & s0 & -> & -> & gap & w & s' & -> & Hg & Hw & Hfs).
        exists gap, (w ++ s'). split_and!; [done..|]. apply IH. by exists w, s'.
    + split.
      * intros (v & s1 & Hv & -> & (w & s' & -> & Hw & Hfs)%IH).
        exists (v ++ w), s'. split_and!; [by rewrite app_assoc| |done]. by exists v, w.
      * intros (w0 & s0 & -> & (v & w & Hv & -> & Hw) & Hfs).
        exists v, (w ++ s0). split_and!; [done|by rewrite app_assoc|]. apply IH. by exists w, s0.
Qed.

Lemma follow_gap gap rs s :
  oneLine gap -> follow oneLine rs s -> follow oneLine rs (gap ++ s).
Proof.
  destruct rs as [|r rs]; [done|]. simpl.
  intros Hg (gap' & w & rest & -> & Hg' & Hw & Hf).
  exists (gap ++ gap'), w, rest. split_and!; [by rewrite app_assoc|by apply oneLine_app|done..].
Qed.

Lemma followFields_runs fs : forall s,
  followFields fs s <-> follow oneLine (List.filter nonEmpty fs) s.
Proof.
  induction fs as [|f fs IH]; intros s; [done|]. simpl.
  destruct f as [|c f]; simpl.
  - split.
    + intros (gap & w & rest & -> & Hg & -> & Hf). simpl.
      apply follow_gap; [done|]. by apply IH.
    + intros Hf. exists [], [], s. split_and!; [done|apply oneLine_nil|done|by apply IH].
  - split.
    + intros (gap & w & rest & -> & Hg & Hw & Hf). exists gap, w, rest.
      split_and!; [done..|]. by apply IH.
    + intros (gap & w & rest & -> & Hg & Hw & Hf). exists gap, w, rest.
      split_and!; [done..|]. by apply IH.
Qed.

Lemma matchesBytes_fuzzy needle name :
  (exists pre s, bytes name = pre ++ s /\ matchesBytes (bytes needle) s) <->
  fuzzy oneLine needle name.
Proof.
  unfold fuzzy, runs. setoid_rewrite matchesBytes_fields.
  destruct (fields needle) as [f fs]. simpl.
  split.
  - intros (pre & s & Hn & w & s' & -> & Hw & Hfs). apply followFields_runs in Hfs.
    destruct f as [|c f]; simpl.
    + simpl in Hw. subst w. by exists pre, s'.
    + exists pre, (w ++ s'). split; [done|]. exists [], w, s'.
      split_and!; [done|apply oneLine_nil|done..].
  - destruct f as [|c f]; simpl.
    + intros (pre & s & Hn & Hf). exists pre, s. split; [done|].
      exists [], s. split_and!; [done..|]. by apply followFields_runs.
    + intros (pre & s & Hn & gap & w & rest & -> & Hg & Hw & Hf).
      exists (pre ++ gap), (w ++ rest). split; [by rewrite <- app_assoc|].
      exists w, rest. split_and!; [done..|]. by apply followFields_runs.
Qed.

Lemma HasPrefix_literalPrefix identifier needle :
  strings.HasPrefix identifier needle = true <-> literalPrefix needle identifier.
Proof.
  unfold strings.HasPrefix, literalPrefix. revert identifier.
  induction needle as [|a needle IH]; intros [|b identifier]; simpl.
  - split; [by exists EmptyString|done].
  - split; [by eexists|done].
  - split; [done|]. by intros [rest H].
  - destruct (ascii_dec a b) as [->|Hne].
    + rewrite IH. split; intros [rest H]; exists rest.
      * by rewrite H.
      * by injection H.
    + split; [done|]. intros [rest H]. by injection H.
Qed.

(** The pattern of a plain needle compiles, and what it matches is
    the fuzzy pattern of the specification with gaps that stay on one
    line. *)
Lemma nameRegex_fuzzy needle :
  plainNeedle needle = true ->
  exists re, MustCompile ("(?i)" +:+ replaceSeparators needle) = Returns re /\
    forall name, MatchString re name = true <-> fuzzy oneLine needle name.
Proof.
  intros Hplain. exists (mkConcat (pieces needle)). split.
  - unfold MustCompile. by rewrite Compile_plain.
  - intros name. rewrite MatchString_pieces by done. apply matchesBytes_fuzzy.
Qed.

End LookUpFacts.

(** *** What the four look-ups return *)

Lemma plainNeedle_stripUserPrefix needle :
  plainNeedle needle = true -> plainNeedle (stripUserPrefix needle) = true.
Proof.
  unfold stripUserPrefix. generalize "user/"%string as p. intros p. revert needle.
  induction p as [|a p IH]; intros needle H; simpl; [done|].
  destruct needle as [|b needle]; [done|].
  destruct (Ascii.eqb a b); [|done].
  assert (plainNeedle needle = true) as H'.
  { unfold plainNeedle, bytes in *. simpl in H. by apply andb_true_iff in H as [_ H]. }
  specialize (IH needle H'). destruct (regexp.trimPrefix p needle); [done|].
  done.
Qed.




(** The example of the specification. *)
Example LookUpImages_ubuntu_focal :
  LookUpImages sortedOrder (cacheWith {["img1" := "Ubuntu Focal LTS"]} ∅ ∅)
    "ubuntu-focal" = Returns ["img1"] /\
  LookUpImages sortedOrder (cacheWith {["img1" := "Ubuntu Focal LTS"]} ∅ ∅)
    "user/ubuntu-focal" = Returns ["img1"].
Proof. split; vm_compute; reflexivity. Qed.


(** A dot in the needle is the dot of [regexp], not a character to
    find: the needle a.c finds the name abc. *)
Example LookUpServers_dot_in_needle :
  LookUpServers sortedOrder (cacheWith ∅ {["x" := "abc"]} ∅) "a.c" = Returns ["x"].
Proof. vm_compute. reflexivity. Qed.


(** C2.  The needle ( makes each of the four look-ups panic:
    the pattern built from it does not compile, and [MustCompile]
    panics. *)
Theorem LookUp_panics_on_open_parenthesis (ord : RangeOrder) (c : ScalewayCache) :
  LookUpServers ord c "(" = Panics /\ LookUpImages ord c "(" = Panics /\
  LookUpSnapshots ord c "(" = Panics /\ LookUpBootscripts ord c "(" = Panics.
Proof. repeat split. Qed.

(** Other needles that panic: a repetition operator with nothing to
    repeat, and one that follows the star of a separator. *)
Example LookUpServers_panics_on_repetition (ord : RangeOrder) (c : ScalewayCache) :
  LookUpServers ord c "*" = Panics /\ LookUpServers ord c "-*" = Panics.
Proof. repeat split. Qed.

(** *** The user prefix *)







(** *** The empty needle *)

(** C10.  With the empty needle each of the four look-ups returns
    the identifiers of its collection, all of them and each once. *)
Theorem LookUp_empty_needle_returns_all (ord : RangeOrder) (c : ScalewayCache) :
  (exists l, LookUpServers ord c EmptyString = Returns l /\
             l ≡ₚ (map_to_list (Servers c)).*1) /\
  (exists l, LookUpImages ord c EmptyString = Returns l /\
             l ≡ₚ (map_to_list (Images c)).*1) /\
  (exists l, LookUpSnapshots ord c EmptyString = Returns l /\
             l ≡ₚ (map_to_list (Snapshots c)).*1) /\
  (exists l, LookUpBootscripts ord c EmptyString = Returns l /\
             l ≡ₚ (map_to_list (Bootscripts c)).*1).
Proof.
  split_and!; eexists; (split; [reflexivity|]); apply LookUpFacts.LookUp_empty_needle.
Qed.

(** *** A look-up after an insertion *)

(** C6.  After the server identifier ( is inserted, the look-up of
    that identifier panics instead of returning it. *)
Theorem LookUpServers_panics_after_InsertServer (ord : RangeOrder) (c : ScalewayCache)
    (name : string) :
  LookUpServers ord (InsertServer "(" name c) "(" = Panics.
Proof. reflexivity. Qed.

Lemma literalPrefix_refl s : literalPrefix s s.
Proof.
  exists EmptyString. induction s as [|a s IH]; [done|].
  change (String a s +:+ EmptyString) with (String a (s +:+ EmptyString)). by rewrite <- IH.
Qed.

(** For an identifier of ASCII characters without metacharacters of
    [regexp], as every UUID is, the look-up after the insertion
    returns and finds the identifier. *)
Theorem LookUpServers_finds_inserted_plain (ord : RangeOrder) (c : ScalewayCache)
    (identifier name : string) :
  plainNeedle identifier = true ->
  exists l, LookUpServers ord (InsertServer identifier name c) identifier = Returns l /\
            identifier ∈ l.
Proof.
  intros Hplain.
  destruct (LookUpFacts.nameRegex_fuzzy identifier Hplain) as (re & Hre & Hm).
  unfold LookUpServers. rewrite Hre. simpl. eexists. split; [reflexivity|].
  apply LookUpFacts.rangeMatching_elem. exists name. split.
  - rewrite InsertServer_eq. case_bool_decide as H; [exact H|].
    simpl. apply lookup_insert_eq.
  - left. apply LookUpFacts.HasPrefix_literalPrefix, literalPrefix_refl.
Qed.

Lemma LookUpServers_finds_inserted_plain_witness :
  plainNeedle "11111111-2222-3333-4444-555555555555" = true /\
  exists l,
    LookUpServers sortedOrder
      (InsertServer "11111111-2222-3333-4444-555555555555" "web" (cacheWith ∅ ∅ ∅))
      "11111111-2222-3333-4444-555555555555" = Returns l /\
    "11111111-2222-3333-4444-555555555555" ∈ l.
Proof.
  split; [reflexivity|].
  exact (LookUpServers_finds_inserted_plain sortedOrder (cacheWith ∅ ∅ ∅)
           "11111111-2222-3333-4444-555555555555" "web" eq_refl).
Defined.

(** *** The aggregate look-up *)

Lemma appendTagged_app type identifiers result :
  appendTagged type identifiers result = result ++ (tagged type <$> identifiers).
Proof.
  unfold appendTagged. revert result.
  induction identifiers as [|i l IH]; intros result; simpl.
  - by rewrite app_nil_r.
  - rewrite IH. by rewrite <- app_assoc.
Qed.

Lemma LookUpIdentifiers_concat (ord : Z -> RangeOrder) (c : ScalewayCache) (needle : string) :
  LookUpIdentifiers ord c needle =
  (servers ← LookUpServers (ord IdentifierServer) c needle;
   images ← LookUpImages (ord IdentifierImage) c needle;
   snapshots ← LookUpSnapshots (ord IdentifierSnapshot) c needle;
   bootscripts ← LookUpBootscripts (ord IdentifierBootscript) c needle;
   Returns ((tagged IdentifierServer <$> servers) ++
            (tagged IdentifierImage <$> images) ++
            (tagged IdentifierSnapshot <$> snapshots) ++
            (tagged IdentifierBootscript <$> bootscripts))).
Proof.
  unfold LookUpIdentifiers. cbv zeta.
  destruct (LookUpServers _ c needle) as [servers| |]; [|done..].
  destruct (LookUpImages _ c needle) as [images| |]; [|done..].
  destruct (LookUpSnapshots _ c needle) as [snapshots| |]; [|done..].
  destruct (LookUpBootscripts _ c needle) as [bootscripts| |]; [|done..].
  simpl. rewrite !appendTagged_app. simpl. by rewrite <- !app_assoc.
Qed.







(** ** The mutators, one with another *)

(** X2.  For each of the four categories, Remove takes the identifier
    out of its collection and leaves the other entries; removing an
    identifier that is not there leaves the collection as it was; and
    the dirty flag is raised in every case, also when nothing was
    removed. *)
Theorem Remove_drops_one_entry_and_marks_dirty :
  removeContract Servers RemoveServer /\
  removeContract Images RemoveImage /\
  removeContract Snapshots RemoveSnapshot /\
  removeContract Bootscripts RemoveBootscript.
Proof.
  split_and!; intros identifier c; simpl;
    (split_and!;
     [ apply lookup_delete_eq
     | intros other Hne; by apply lookup_delete_ne
     | intros Hnone; by apply delete_id
     | reflexivity ]).
Qed.

Lemma Insert_other_keys (identifier name other : string) (c : ScalewayCache) :
  other <> identifier ->
  Servers (InsertServer identifier name c) !! other = Servers c !! other /\
  Images (InsertImage identifier name c) !! other = Images c !! other /\
  Snapshots (InsertSnapshot identifier name c) !! other = Snapshots c !! other /\
  Bootscripts (InsertBootscript identifier name c) !! other = Bootscripts c !! other.
Proof.
  intros Hne. rewrite ?InsertServer_eq, ?InsertImage_eq, ?InsertSnapshot_eq, ?InsertBootscript_eq.
  split_and!; case_bool_decide; try done; simpl; by apply lookup_insert_ne.
Qed.

(** X3.  An insertion into one collection leaves the three other
    collections and the path of the cache as they were, and in its
    own collection it leaves the entry of every other identifier. *)
Theorem Insert_leaves_the_rest (identifier name : string) (c : ScalewayCache) :
  (Images (InsertServer identifier name c) = Images c /\
   Snapshots (InsertServer identifier name c) = Snapshots c /\
   Bootscripts (InsertServer identifier name c) = Bootscripts c /\
   Path (InsertServer identifier name c) = Path c /\
   forall other, other <> identifier ->
     Servers (InsertServer identifier name c) !! other = Servers c !! other) /\
  (Servers (InsertImage identifier name c) = Servers c /\
   Snapshots (InsertImage identifier name c) = Snapshots c /\
   Bootscripts (InsertImage identifier name c) = Bootscripts c /\
   Path (InsertImage identifier name c) = Path c /\
   forall other, other <> identifier ->
     Images (InsertImage identifier name c) !! other = Images c !! other) /\
  (Servers (InsertSnapshot identifier name c) = Servers c /\
   Images (InsertSnapshot identifier name c) = Images c /\
   Bootscripts (InsertSnapshot identifier name c) = Bootscripts c /\
   Path (InsertSnapshot identifier name c) = Path c /\
   forall other, other <> identifier ->
     Snapshots (InsertSnapshot identifier name c) !! other = Snapshots c !! other) /\
  (Servers (InsertBootscript identifier name c) = Servers c /\
   Images (InsertBootscript identifier name c) = Images c /\
   Snapshots (InsertBootscript identifier name c) = Snapshots c /\
   Path (InsertBootscript identifier name c) = Path c /\
   forall other, other <> identifier ->
     Bootscripts (InsertBootscript identifier name c) !! other = Bootscripts c !! other).
Proof.
  split_and!;
    try (intros other Hne; by apply (Insert_other_keys identifier name other c));
    rewrite ?InsertServer_eq, ?InsertImage_eq, ?InsertSnapshot_eq, ?InsertBootscript_eq; case_bool_decide; reflexivity.
Qed.

(** X4.  In each category, removing an identifier just inserted
    gives the collection without that identifier, whatever it held
    for it before; and inserting a pair after removing its identifier
    gives the collection with that pair. *)
Theorem Remove_undoes_Insert (identifier name : string) (c : ScalewayCache) :
  (Servers (RemoveServer identifier (InsertServer identifier name c))
     = delete identifier (Servers c) /\
   Images (RemoveImage identifier (InsertImage identifier name c))
     = delete identifier (Images c) /\
   Snapshots (RemoveSnapshot identifier (InsertSnapshot identifier name c))
     = delete identifier (Snapshots c) /\
   Bootscripts (RemoveBootscript identifier (InsertBootscript identifier name c))
     = delete identifier (Bootscripts c)) /\
  (Servers (InsertServer identifier name (RemoveServer identifier c))
     = <[identifier := name]> (Servers c) /\
   Images (InsertImage identifier name (RemoveImage identifier c))
     = <[identifier := name]> (Images c) /\
   Snapshots (InsertSnapshot identifier name (RemoveSnapshot identifier c))
     = <[identifier := name]> (Snapshots c) /\
   Bootscripts (InsertBootscript identifier name (RemoveBootscript identifier c))
     = <[identifier := name]> (Bootscripts c)).
Proof.
  rewrite ?InsertServer_eq, ?InsertImage_eq, ?InsertSnapshot_eq, ?InsertBootscript_eq. split.
  - split_and!; case_bool_decide as H; simpl;
      solve [ by rewrite delete_insert_eq | done ].
  - split_and!; simpl; rewrite bool_decide_eq_false_2 by (by rewrite lookup_delete_eq);
      simpl; by rewrite insert_delete_eq.
Qed.

Lemma size_insert_cases (m : gmap string string) i x :
  size (<[i := x]> m) = if bool_decide (is_Some (m !! i)) then size m else S (size m).
Proof.
  case_bool_decide as H.
  - by apply map_size_insert_Some.
  - apply map_size_insert_None. by apply eq_None_not_Some.
Qed.

Lemma size_delete_cases (m : gmap string string) i :
  size (delete i m) = if bool_decide (is_Some (m !! i)) then pred (size m) else size m.
Proof.
  case_bool_decide as H.
  - by apply map_size_delete_Some.
  - apply map_size_delete_None. by apply eq_None_not_Some.
Qed.

Lemma countContract_intro field with_ count insert remove clear :
  (forall c, count c = size (field c)) ->
  (forall m c, field (withModified true (with_ m c)) = m) ->
  (forall identifier name c,
     insert identifier name c =
     if bool_decide (field c !! identifier = Some name) then c
     else withModified true (with_ (<[identifier := name]> (field c)) c)) ->
  (forall identifier c,
     remove identifier c = withModified true (with_ (delete identifier (field c)) c)) ->
  (forall c, clear c = withModified true (with_ ∅ c)) ->
  countContract field count insert remove clear.
Proof.
  intros Hcount Hfield Hins Hrem Hclr identifier name c. split_and!.
  - rewrite Hins. case_bool_decide as H.
    + rewrite bool_decide_eq_true_2; [done|]. by rewrite H.
    + rewrite (Hcount (withModified _ _)), Hfield, (Hcount c). apply size_insert_cases.
  - rewrite Hrem, (Hcount (withModified _ _)), Hfield, (Hcount c). apply size_delete_cases.
  - rewrite Hclr, Hcount, Hfield. apply map_size_empty.
  - rewrite Hcount. apply map_size_empty_iff.
Qed.

(** X5.  In each category, GetNb counts the entries of the
    collection: an insertion adds one exactly when the identifier was
    absent, a removal takes one off exactly when it was present, the
    count is zero after Clear, and it is zero only for the empty
    collection. *)
Theorem GetNb_counts_entries :
  countContract Servers GetNbServers InsertServer RemoveServer ClearServers /\
  countContract Images GetNbImages InsertImage RemoveImage ClearImages /\
  countContract Snapshots GetNbSnapshots InsertSnapshot RemoveSnapshot ClearSnapshots /\
  countContract Bootscripts GetNbBootscripts InsertBootscript RemoveBootscript
                ClearBootscripts.
Proof.
  split_and!.
  - apply (countContract_intro Servers withServers); auto using InsertServer_eq.
  - apply (countContract_intro Images withImages); auto using InsertImage_eq.
  - apply (countContract_intro Snapshots withSnapshots); auto using InsertSnapshot_eq.
  - apply (countContract_intro Bootscripts withBootscripts); auto using InsertBootscript_eq.
Qed.

(** X6.  None of the twelve mutators lowers the dirty flag: a cache
    that is dirty before an Insert, a Remove or a Clear is dirty after
    it. *)
Theorem mutators_never_clear_the_dirty_flag (identifier name : string) (c : ScalewayCache) :
  Forall (fun c' => implb (Modified c) (Modified c') = true)
    [ InsertServer identifier name c; RemoveServer identifier c; ClearServers c;
      InsertImage identifier name c; RemoveImage identifier c; ClearImages c;
      InsertSnapshot identifier name c; RemoveSnapshot identifier c; ClearSnapshots c;
      InsertBootscript identifier name c; RemoveBootscript identifier c;
      ClearBootscripts c ].
Proof.
  rewrite ?InsertServer_eq, ?InsertImage_eq, ?InsertSnapshot_eq, ?InsertBootscript_eq. repeat constructor; simpl;
    try (case_bool_decide; simpl); by destruct (Modified c).
Qed.

(** X7.  Two insertions into one collection under different
    identifiers commute: either order leaves the same cache, dirty
    flag included. *)
Theorem Insert_commutes (i1 n1 i2 n2 : string) (c : ScalewayCache) :
  i1 <> i2 ->
  InsertServer i1 n1 (InsertServer i2 n2 c) = InsertServer i2 n2 (InsertServer i1 n1 c) /\
  InsertImage i1 n1 (InsertImage i2 n2 c) = InsertImage i2 n2 (InsertImage i1 n1 c) /\
  InsertSnapshot i1 n1 (InsertSnapshot i2 n2 c)
    = InsertSnapshot i2 n2 (InsertSnapshot i1 n1 c) /\
  InsertBootscript i1 n1 (InsertBootscript i2 n2 c)
    = InsertBootscript i2 n2 (InsertBootscript i1 n1 c).
Proof.
  intros Hne. rewrite ?InsertServer_eq, ?InsertImage_eq, ?InsertSnapshot_eq, ?InsertBootscript_eq.
  split_and!;
    repeat (case_bool_decide; simpl in *);
    rewrite ?lookup_insert_ne in * by done; try done; try congruence;
    unfold withModified; simpl; f_equal; by apply insert_insert_ne.
Qed.

Lemma Insert_commutes_witness :
  "srv1" <> "srv2" /\
  InsertServer "srv1" "web" (InsertServer "srv2" "db" (cacheWith ∅ ∅ ∅))
    = InsertServer "srv2" "db" (InsertServer "srv1" "web" (cacheWith ∅ ∅ ∅)) /\
  InsertImage "srv1" "web" (InsertImage "srv2" "db" (cacheWith ∅ ∅ ∅))
    = InsertImage "srv2" "db" (InsertImage "srv1" "web" (cacheWith ∅ ∅ ∅)) /\
  InsertSnapshot "srv1" "web" (InsertSnapshot "srv2" "db" (cacheWith ∅ ∅ ∅))
    = InsertSnapshot "srv2" "db" (InsertSnapshot "srv1" "web" (cacheWith ∅ ∅ ∅)) /\
  InsertBootscript "srv1" "web" (InsertBootscript "srv2" "db" (cacheWith ∅ ∅ ∅))
    = InsertBootscript "srv2" "db" (InsertBootscript "srv1" "web" (cacheWith ∅ ∅ ∅)).
Proof.
  assert ("srv1" <> "srv2") as Hne by discriminate.
  split; [exact Hne|].
  exact (Insert_commutes "srv1" "web" "srv2" "db" (cacheWith ∅ ∅ ∅) Hne).
Defined.

(** ** The look-ups and the mutators *)







Lemma bytes_app s1 s2 : bytes (s1 +:+ s2) = bytes s1 ++ bytes s2.
Proof.
  induction s1 as [|a s1 IH]; [done|].
  change (bytes (String a s1 +:+ s2)) with (a :: bytes (s1 +:+ s2)). by rewrite IH.
Qed.

Lemma plainNeedle_prefix needle identifier :
  literalPrefix needle identifier ->
  plainNeedle identifier = true -> plainNeedle needle = true.
Proof.
  intros [rest ->]. unfold plainNeedle. rewrite bytes_app, forallb_app.
  by intros [H _]%andb_true_iff.
Qed.

Lemma Insert_lookup identifier name c :
  Servers (InsertServer identifier name c) !! identifier = Some name /\
  Images (InsertImage identifier name c) !! identifier = Some name /\
  Snapshots (InsertSnapshot identifier name c) !! identifier = Some name /\
  Bootscripts (InsertBootscript identifier name c) !! identifier = Some name.
Proof.
  rewrite InsertServer_eq, InsertImage_eq, InsertSnapshot_eq, InsertBootscript_eq.
  split_and!; (case_bool_decide as H; [exact H|]); simpl; apply lookup_insert_eq.
Qed.

Lemma lookUp_finds (ord : RangeOrder) needle (m : gmap string string) identifier name :
  plainNeedle needle = true ->
  m !! identifier = Some name ->
  literalPrefix needle identifier \/ fuzzy oneLine needle name ->
  exists l,
    (nameRegex ← regexp.MustCompile ("(?i)" +:+ replaceSeparators needle);
     Returns (rangeMatching needle nameRegex (ord m))) = Returns l /\
    identifier ∈ l.
Proof.
  intros Hplain Hm Hmatch.
  destruct (LookUpFacts.nameRegex_fuzzy needle Hplain) as (re & -> & Hre).
  simpl. eexists. split; [reflexivity|].
  apply LookUpFacts.rangeMatching_elem. exists name. split; [done|].
  destruct Hmatch as [H|H]; [left; by apply LookUpFacts.HasPrefix_literalPrefix|].
  right. by apply Hre.
Qed.

(** X11.  For an identifier of ASCII characters without
    metacharacters of [regexp], the look-up of servers after its
    insertion returns and finds it from any needle that is a prefix
    of it; so does the look-up of bootscripts. *)
Theorem LookUp_finds_inserted_by_prefix (ord : RangeOrder) (c : ScalewayCache)
    (identifier name needle : string) :
  plainNeedle identifier = true ->
  literalPrefix needle identifier ->
  (exists l, LookUpServers ord (InsertServer identifier name c) needle = Returns l /\
             identifier ∈ l) /\
  (exists l, LookUpBootscripts ord (InsertBootscript identifier name c) needle
               = Returns l /\ identifier ∈ l).
Proof.
  intros Hplain Hprefix.
  pose proof (plainNeedle_prefix _ _ Hprefix Hplain) as Hneedle.
  destruct (Insert_lookup identifier name c) as (Hs & _ & _ & Hb).
  split; eapply lookUp_finds; eauto.
Qed.

Lemma LookUp_finds_inserted_by_prefix_witness :
  plainNeedle "11111111-2222-3333-4444-555555555555" = true /\
  literalPrefix "1111" "11111111-2222-3333-4444-555555555555" /\
  (exists l,
     LookUpServers sortedOrder
       (InsertServer "11111111-2222-3333-4444-555555555555" "web" (cacheWith ∅ ∅ ∅))
       "1111" = Returns l /\
     "11111111-2222-3333-4444-555555555555" ∈ l) /\
  (exists l,
     LookUpBootscripts sortedOrder
       (InsertBootscript "11111111-2222-3333-4444-555555555555" "web" (cacheWith ∅ ∅ ∅))
       "1111" = Returns l /\
     "11111111-2222-3333-4444-555555555555" ∈ l).
Proof.
  assert (literalPrefix "1111" "11111111-2222-3333-4444-555555555555") as Hprefix
    by (exists "1111-2222-3333-4444-555555555555"; reflexivity).
  split; [reflexivity|]. split; [exact Hprefix|].
  exact (LookUp_finds_inserted_by_prefix sortedOrder (cacheWith ∅ ∅ ∅)
           "11111111-2222-3333-4444-555555555555" "web" "1111" eq_refl Hprefix).
Defined.

Lemma stripUserPrefix_prefix needle identifier :
  literalPrefix needle identifier ->
  strings.HasPrefix identifier "user/" = false ->
  stripUserPrefix needle = needle.
Proof.
  intros [rest ->] Hid. apply LookUpFacts.stripUserPrefix_id.
  destruct (strings.HasPrefix needle "user/") eqn:Hn; [|done].
  apply LookUpFacts.HasPrefix_literalPrefix in Hn as [r ->].
  assert (strings.HasPrefix (("user/" +:+ r) +:+ rest) "user/" = true) as H; [|congruence].
  apply LookUpFacts.HasPrefix_literalPrefix. exists (r +:+ rest). reflexivity.
Qed.

(** X12.  For an identifier of ASCII characters without
    metacharacters of [regexp] that does not start with the user
    prefix, the look-up of images after its insertion returns and
    finds it from any needle that is a prefix of it; so does the
    look-up of snapshots. *)
Theorem LookUp_finds_inserted_image_by_prefix (ord : RangeOrder) (c : ScalewayCache)
    (identifier name needle : string) :
  plainNeedle identifier = true ->
  strings.HasPrefix identifier "user/" = false ->
  literalPrefix needle identifier ->
  (exists l, LookUpImages ord (InsertImage identifier name c) needle = Returns l /\
             identifier ∈ l) /\
  (exists l, LookUpSnapshots ord (InsertSnapshot identifier name c) needle = Returns l /\
             identifier ∈ l).
Proof.
  intros Hplain Huser Hprefix.
  pose proof (plainNeedle_prefix _ _ Hprefix Hplain) as Hneedle.
  destruct (Insert_lookup identifier name c) as (_ & Hi & Hsn & _).
  unfold LookUpImages, LookUpSnapshots. cbv zeta.
  rewrite (stripUserPrefix_prefix _ _ Hprefix Huser).
  split; eapply lookUp_finds; eauto.
Qed.

Lemma LookUp_finds_inserted_image_by_prefix_witness :
  plainNeedle "11111111-2222-3333-4444-555555555555" = true /\
  strings.HasPrefix "11111111-2222-3333-4444-555555555555" "user/" = false /\
  literalPrefix "1111" "11111111-2222-3333-4444-555555555555" /\
  (exists l,
     LookUpImages sortedOrder
       (InsertImage "11111111-2222-3333-4444-555555555555" "ubuntu" (cacheWith ∅ ∅ ∅))
       "1111" = Returns l /\
     "11111111-2222-3333-4444-555555555555" ∈ l) /\
  (exists l,
     LookUpSnapshots sortedOrder
       (InsertSnapshot "11111111-2222-3333-4444-555555555555" "ubuntu" (cacheWith ∅ ∅ ∅))
       "1111" = Returns l /\
     "11111111-2222-3333-4444-555555555555" ∈ l).
Proof.
  assert (literalPrefix "1111" "11111111-2222-3333-4444-555555555555") as Hprefix
    by (exists "1111-2222-3333-4444-555555555555"; reflexivity).
  split; [reflexivity|]. split; [reflexivity|]. split; [exact Hprefix|].
  exact (LookUp_finds_inserted_image_by_prefix sortedOrder (cacheWith ∅ ∅ ∅)
           "11111111-2222-3333-4444-555555555555" "ubuntu" "1111"
           eq_refl eq_refl Hprefix).
Defined.

Lemma isSeparator_not_newline c : isSeparator c = true -> c <> newline.
Proof. intros H ->. discriminate H. Qed.

Lemma matchesBytes_upToCase l1 : forall l2,
  Forall2 foldsTo l1 l2 -> matchesBytes l1 l2.
Proof.
  induction l1 as [|a l1 IH]; intros l2 H; [done|].
  inversion H as [|? b ? l2' Hab Hrest]; subst. simpl.
  destruct (isSeparator a) eqn:Hsep.
  - exists [b], l2'. split_and!; [done| |by apply IH].
    assert (b = a) as ->.
    { unfold foldsTo, regexp.foldVariants in Hab.
      unfold isSeparator in Hsep.
      rewrite !LookUpFacts.isOneOf_cons, LookUpFacts.isOneOf_nil, orb_false_r in Hsep.
      apply orb_true_iff in Hsep as [Hs|Hs]; apply Ascii.eqb_eq in Hs as ->;
        simpl in Hab; destruct Hab as [[= ->]|[]]; done. }
    intros [Heq|[]]. by apply (isSeparator_not_newline a).
  - exists [b], l2'. split_and!; [exact Hab|done|by apply IH].
Qed.

Lemma bytes_stripUserPrefix needle :
  exists pre, bytes needle = pre ++ bytes (stripUserPrefix needle).
Proof.
  unfold stripUserPrefix.
  destruct (regexp.trimPrefix "user/" needle) as [rest|] eqn:H; [|by exists []].
  exists (bytes "user/").
  assert (forall p s r, regexp.trimPrefix p s = Some r -> bytes s = bytes p ++ bytes r) as Ht.
  { clear. induction p as [|a p IH]; intros s r; simpl.
    - by intros [= ->].
    - destruct s as [|b s]; [done|]. destruct (Ascii.eqb_spec a b) as [->|]; [|done].
      intros Hr%IH. change (bytes (String b s)) with (b :: bytes s). by rewrite Hr. }
  by apply Ht.
Qed.

Lemma fuzzy_upToCase needle name :
  sameUpToCase needle name -> fuzzy oneLine (stripUserPrefix needle) name.
Proof.
  intros H. apply LookUpFacts.matchesBytes_fuzzy.
  destruct (bytes_stripUserPrefix needle) as [pre Hpre].
  unfold sameUpToCase in H. rewrite Hpre in H.
  apply Forall2_app_inv_l in H as (n1 & n2 & _ & H2 & Hn).
  exists n1, n2. split; [done|]. by apply matchesBytes_upToCase.
Qed.

Lemma fuzzy_upToCase_plain needle name :
  sameUpToCase needle name -> fuzzy oneLine needle name.
Proof.
  intros H. apply LookUpFacts.matchesBytes_fuzzy.
  exists [], (bytes name). split; [done|]. by apply matchesBytes_upToCase.
Qed.

(** X13.  For a needle of ASCII characters without metacharacters
    of [regexp], each of the four look-ups after the insertion of an
    identifier returns and finds it when the needle is the inserted
    name up to the case of its letters, whatever the identifier. *)
Theorem LookUp_finds_inserted_by_name (ord : RangeOrder) (c : ScalewayCache)
    (identifier name needle : string) :
  plainNeedle needle = true ->
  sameUpToCase needle name ->
  (exists l, LookUpServers ord (InsertServer identifier name c) needle = Returns l /\
             identifier ∈ l) /\
  (exists l, LookUpImages ord (InsertImage identifier name c) needle = Returns l /\
             identifier ∈ l) /\
  (exists l, LookUpSnapshots ord (InsertSnapshot identifier name c) needle = Returns l /\
             identifier ∈ l) /\
  (exists l, LookUpBootscripts ord (InsertBootscript identifier name c) needle
               = Returns l /\ identifier ∈ l).
Proof.
  intros Hplain Hcase.
  pose proof (plainNeedle_stripUserPrefix needle Hplain) as Hstrip.
  destruct (Insert_lookup identifier name c) as (Hs & Hi & Hsn & Hb).
  unfold LookUpImages, LookUpSnapshots. cbv zeta.
  split_and!; eapply lookUp_finds; eauto using fuzzy_upToCase, fuzzy_upToCase_plain.
Qed.

Lemma LookUp_finds_inserted_by_name_witness :
  plainNeedle "web-1" = true /\
  sameUpToCase "web-1" "Web-1" /\
  (exists l, LookUpServers sortedOrder (InsertServer "(id)" "Web-1" (cacheWith ∅ ∅ ∅))
               "web-1" = Returns l /\ "(id)" ∈ l) /\
  (exists l, LookUpImages sortedOrder (InsertImage "(id)" "Web-1" (cacheWith ∅ ∅ ∅))
               "web-1" = Returns l /\ "(id)" ∈ l) /\
  (exists l, LookUpSnapshots sortedOrder (InsertSnapshot "(id)" "Web-1" (cacheWith ∅ ∅ ∅))
               "web-1" = Returns l /\ "(id)" ∈ l) /\
  (exists l, LookUpBootscripts sortedOrder
               (InsertBootscript "(id)" "Web-1" (cacheWith ∅ ∅ ∅))
               "web-1" = Returns l /\ "(id)" ∈ l).
Proof.
  assert (sameUpToCase "web-1" "Web-1") as Hcase.
  { unfold sameUpToCase, foldsTo. simpl bytes.
    repeat (constructor; [vm_compute; tauto|]). constructor. }
  split; [reflexivity|]. split; [exact Hcase|].
  exact (LookUp_finds_inserted_by_name sortedOrder (cacheWith ∅ ∅ ∅)
           "(id)" "Web-1" "web-1" eq_refl Hcase).
Defined.

Lemma isSeparator_plainChar c : isSeparator c = true -> plainChar c = true.
Proof.
  unfold isSeparator. rewrite !LookUpFacts.isOneOf_cons, LookUpFacts.isOneOf_nil.
  rewrite orb_false_r. intros [H|H]%orb_true_iff; apply Ascii.eqb_eq in H as ->; reflexivity.
Qed.

Lemma separatorsOnly_plain needle : separatorsOnly needle = true -> plainNeedle needle = true.
Proof.
  unfold separatorsOnly, plainNeedle. rewrite !forallb_forall.
  intros H x Hx. by apply isSeparator_plainChar, H.
Qed.

Lemma separatorsOnly_fields needle :
  separatorsOnly needle = true ->
  (fields needle).1 = [] /\ Forall (fun f => f = []) (fields needle).2.
Proof.
  induction needle as [|c rest IH]; [by split|].
  unfold separatorsOnly. change (bytes (String c rest)) with (c :: bytes rest).
  simpl. intros [Hc Hrest]%andb_true_iff. destruct (IH Hrest) as [H1 H2].
  destruct (fields rest) as [f fs]. simpl in *. rewrite Hc. simpl. split; [done|].
  by constructor.
Qed.

Lemma separatorsOnly_runs needle : separatorsOnly needle = true -> runs needle = [].
Proof.
  intros [H1 H2]%separatorsOnly_fields. unfold runs.
  destruct (fields needle) as [f fs]. simpl in *. subst f. simpl.
  induction H2 as [|f fs -> _ IH]; [done|]. exact IH.
Qed.

Lemma separatorsOnly_strip needle :
  separatorsOnly needle = true -> stripUserPrefix needle = needle.
Proof.
  intros H. unfold stripUserPrefix. destruct needle as [|c rest]; [done|].
  unfold separatorsOnly in H. change (bytes (String c rest)) with (c :: bytes rest) in H.
  simpl in H. apply andb_true_iff in H as [Hc _].
  assert (Ascii.eqb "u" c = false) as Hu.
  { destruct (Ascii.eqb_spec "u" c) as [<-|_]; [discriminate Hc|done]. }
  change (regexp.trimPrefix "user/" (String c rest))
    with (if Ascii.eqb "u" c then regexp.trimPrefix "ser/" rest else None).
  by rewrite Hu.
Qed.

Lemma lookUp_all (ord : RangeOrder) needle (m : gmap string string) :
  separatorsOnly needle = true ->
  exists l,
    (nameRegex ← regexp.MustCompile ("(?i)" +:+ replaceSeparators needle);
     Returns (rangeMatching needle nameRegex (ord m))) = Returns l /\
    l ≡ₚ (map_to_list m).*1.
Proof.
  intros Hsep.
  destruct (LookUpFacts.nameRegex_fuzzy needle (separatorsOnly_plain _ Hsep))
    as (re & -> & Hm).
  simpl. eexists. split; [reflexivity|].
  rewrite LookUpFacts.rangeMatching_filter, LookUpFacts.filter_all.
  - by rewrite (visit_perm ord m).
  - intros [i n]. unfold matching. simpl. apply orb_true_iff. right.
    apply Hm. exists [], (bytes n). split; [done|]. by rewrite separatorsOnly_runs.
Qed.

(** X14.  With a needle made of the separators - and _ only, each
    of the four look-ups returns the identifiers of its collection,
    all of them and each once. *)
Theorem LookUp_separators_only_returns_all (ord : RangeOrder) (c : ScalewayCache)
    (needle : string) :
  separatorsOnly needle = true ->
  (exists l, LookUpServers ord c needle = Returns l /\
             l ≡ₚ (map_to_list (Servers c)).*1) /\
  (exists l, LookUpImages ord c needle = Returns l /\
             l ≡ₚ (map_to_list (Images c)).*1) /\
  (exists l, LookUpSnapshots ord c needle = Returns l /\
             l ≡ₚ (map_to_list (Snapshots c)).*1) /\
  (exists l, LookUpBootscripts ord c needle = Returns l /\
             l ≡ₚ (map_to_list (Bootscripts c)).*1).
Proof.
  intros Hsep. unfold LookUpServers, LookUpImages, LookUpSnapshots, LookUpBootscripts.
  cbv zeta. rewrite (separatorsOnly_strip needle Hsep).
  split_and!; by apply lookUp_all.
Qed.

Lemma LookUp_separators_only_returns_all_witness :
  separatorsOnly "-_" = true /\
  (exists l, LookUpServers sortedOrder
               (cacheWith {["img1" := "Ubuntu"]} {["srv1" := "web"]} {["bs1" := "boot"]})
               "-_" = Returns l /\
             l ≡ₚ (map_to_list (Servers
               (cacheWith {["img1" := "Ubuntu"]} {["srv1" := "web"]} {["bs1" := "boot"]}))).*1) /\
  (exists l, LookUpImages sortedOrder
               (cacheWith {["img1" := "Ubuntu"]} {["srv1" := "web"]} {["bs1" := "boot"]})
               "-_" = Returns l /\
             l ≡ₚ (map_to_list (Images
               (cacheWith {["img1" := "Ubuntu"]} {["srv1" := "web"]} {["bs1" := "boot"]}))).*1) /\
  (exists l, LookUpSnapshots sortedOrder
               (cacheWith {["img1" := "Ubuntu"]} {["srv1" := "web"]} {["bs1" := "boot"]})
               "-_" = Returns l /\
             l ≡ₚ (map_to_list (Snapshots
               (cacheWith {["img1" := "Ubuntu"]} {["srv1" := "web"]} {["bs1" := "boot"]}))).*1) /\
  (exists l, LookUpBootscripts sortedOrder
               (cacheWith {["img1" := "Ubuntu"]} {["srv1" := "web"]} {["bs1" := "boot"]})
               "-_" = Returns l /\
             l ≡ₚ (map_to_list (Bootscripts
               (cacheWith {["img1" := "Ubuntu"]} {["srv1" := "web"]} {["bs1" := "boot"]}))).*1).
Proof.
  split; [reflexivity|].
  exact (LookUp_separators_only_returns_all sortedOrder
           (cacheWith {["img1" := "Ubuntu"]} {["srv1" := "web"]} {["bs1" := "boot"]})
           "-_" eq_refl).
Defined.

(** X15.  With a needle made of separators only, the aggregate
    look-up returns as many entries as the four collections hold
    together. *)
Theorem LookUpIdentifiers_separators_only_counts_all (ord : Z -> RangeOrder)
    (c : ScalewayCache) (needle : string) :
  separatorsOnly needle = true ->
  exists result,
    LookUpIdentifiers ord c needle = Returns result /\
    length result =
      (GetNbServers c + GetNbImages c + GetNbSnapshots c + GetNbBootscripts c)%nat.
Proof.
  intros Hsep. rewrite LookUpIdentifiers_concat.
  unfold LookUpServers, LookUpImages, LookUpSnapshots, LookUpBootscripts.
  cbv zeta. rewrite (separatorsOnly_strip needle Hsep).
  destruct (lookUp_all (ord IdentifierServer) needle (Servers c) Hsep) as (ls & -> & Hls).
  destruct (lookUp_all (ord IdentifierImage) needle (Images c) Hsep) as (li & -> & Hli).
  destruct (lookUp_all (ord IdentifierSnapshot) needle (Snapshots c) Hsep)
    as (lsn & -> & Hlsn).
  destruct (lookUp_all (ord IdentifierBootscript) needle (Bootscripts c) Hsep)
    as (lb & -> & Hlb).
  simpl. eexists. split; [reflexivity|].
  rewrite !length_app, !length_fmap.
  rewrite Hls, Hli, Hlsn, Hlb, !length_fmap, !length_map_to_list.
  unfold GetNbServers, GetNbImages, GetNbSnapshots, GetNbBootscripts. lia.
Qed.

Lemma LookUpIdentifiers_separators_only_counts_all_witness :
  separatorsOnly "-" = true /\
  exists result,
    LookUpIdentifiers (fun _ => sortedOrder)
      (cacheWith {["img1" := "Ubuntu"]} {["srv1" := "web"]} {["bs1" := "boot"]}) "-"
      = Returns result /\
    length result =
      (GetNbServers (cacheWith {["img1" := "Ubuntu"]} {["srv1" := "web"]} {["bs1" := "boot"]})
       + GetNbImages (cacheWith {["img1" := "Ubuntu"]} {["srv1" := "web"]} {["bs1" := "boot"]})
       + GetNbSnapshots (cacheWith {["img1" := "Ubuntu"]} {["srv1" := "web"]} {["bs1" := "boot"]})
       + GetNbBootscripts (cacheWith {["img1" := "Ubuntu"]} {["srv1" := "web"]} {["bs1" := "boot"]}))%nat.
Proof.
  split; [reflexivity|].
  exact (LookUpIdentifiers_separators_only_counts_all (fun _ => sortedOrder)
           (cacheWith {["img1" := "Ubuntu"]} {["srv1" := "web"]} {["bs1" := "boot"]})
           "-" eq_refl).
Defined.

(** X16.  A needle that starts with one of the operators * + ? or
    with a closing parenthesis makes the four look-ups and the
    aggregate look-up panic, whatever follows it in the needle and
    whatever the cache holds; for images and snapshots also behind
    the user prefix. *)
Theorem LookUp_panics_on_leading_operator (ord : RangeOrder) (ords : Z -> RangeOrder)
    (c : ScalewayCache) (rest : string) :
  Forall (fun first =>
            LookUpServers ord c (String first rest) = Panics /\
            LookUpImages ord c (String first rest) = Panics /\
            LookUpSnapshots ord c (String first rest) = Panics /\
            LookUpBootscripts ord c (String first rest) = Panics /\
            LookUpImages ord c ("user/" +:+ String first rest) = Panics /\
            LookUpSnapshots ord c ("user/" +:+ String first rest) = Panics /\
            LookUpIdentifiers ords c (String first rest) = Panics)
         ["*"; "+"; "?"; ")"]%char.
Proof. repeat constructor. Qed.

(** ** Saving after loading *)

Section SaveLoadFacts.

Context {error FS : Type}.
Variable os_Getenv : string -> string.
Variable filepath_Join : string -> string -> string.
Variable os_Stat : string -> option error.
Variable os_IsNotExist : error -> bool.
Variable ioutil_ReadFile : string -> error + string.
Variable json_Unmarshal : string -> error + decodedCache.
Variable ioutil_TempFile : FS -> (error + string) * FS.
Variable encoder_Encode : string -> ScalewayCache -> FS -> option error * FS.
Variable os_Rename : string -> string -> FS -> option error * FS.

(** X17.  A cache that has just been loaded is clean and has the
    path it was loaded from, so saving it returns no error and calls
    nothing of the file system. *)
Theorem Save_after_load_does_nothing (c : ScalewayCache) (fs : FS) :
  NewScalewayCache os_Getenv filepath_Join os_Stat os_IsNotExist
                   ioutil_ReadFile json_Unmarshal = Loaded c ->
  Modified c = false /\
  Path c = cachePath os_Getenv filepath_Join /\
  Save ioutil_TempFile encoder_Encode os_Rename c fs = (None, c, fs).
Proof.
  unfold NewScalewayCache. intros H.
  assert (Modified c = false /\ Path c = cachePath os_Getenv filepath_Join) as [Hm Hp].
  { destruct (os_Stat _) as [e|].
    - destruct (os_IsNotExist e); [|discriminate]. by injection H as <-.
    - destruct (ioutil_ReadFile _) as [e|file]; [discriminate|].
      destruct (json_Unmarshal file) as [e|d]; [discriminate|]. by injection H as <-. }
  split_and!; [done..|]. unfold Save. by rewrite Hm.
Qed.

(** X18.  Saving a clean cache touches nothing.  Save returns no
    error exactly when the cache is clean or the temporary file is
    created, the cache is encoded into it and it is renamed to the
    path of the cache; when creating the file or encoding fails, Save
    returns that error with the file system as the failed call left
    it, and does not rename. *)
Theorem Save_succeeds_iff (c : ScalewayCache) (fs : FS) :
  let r := Save ioutil_TempFile encoder_Encode os_Rename c fs in
  (Modified c = false -> r = (None, c, fs)) /\
  (r.1.1 = None <->
   Modified c = false \/
   exists file fs1 fs2,
     ioutil_TempFile fs = (inr file, fs1) /\
     encoder_Encode file c fs1 = (None, fs2) /\
     os_Rename file (Path c) fs2 = (None, r.2)) /\
  (forall err fs1, ioutil_TempFile fs = (inl err, fs1) -> Modified c = true ->
     r = (Some err, c, fs1)) /\
  (forall file err fs1 fs2, ioutil_TempFile fs = (inr file, fs1) ->
     encoder_Encode file c fs1 = (Some err, fs2) -> Modified c = true ->
     r = (Some err, c, fs2)).
Proof.
  cbv zeta. unfold Save. destruct (Modified c) eqn:Hm.
  - split_and!; [done| |intros err fs1 -> _; done|intros file err fs1 fs2 -> -> _; done].
    destruct (ioutil_TempFile fs) as [[err|file] fs1] eqn:Ht.
    { simpl. split; [done|]. intros [?|(? & ? & ? & H1 & _)]; done. }
    destruct (encoder_Encode file c fs1) as [[err|] fs2] eqn:He.
    { simpl. split; [done|]. intros [?|(? & ? & ? & H1 & H2 & _)]; [done|].
      injection H1 as <- <-. rewrite He in H2. done. }
    destruct (os_Rename file (Path c) fs2) as [[err|] fs3] eqn:Hr; simpl.
    + split; [done|]. intros [?|(? & ? & ? & H1 & H2 & H3)]; [done|].
      injection H1 as <- <-. rewrite He in H2. injection H2 as <-.
      rewrite Hr in H3. done.
    + split; [|done]. intros _. right. by exists file, fs1, fs2.
  - split_and!; [done|by split; auto|done..].
Qed.

End SaveLoadFacts.

Lemma Save_after_load_does_nothing_witness :
  let os_Getenv := fun v : string => if String.eqb v "HOME" then "/home/u" else EmptyString in
  let filepath_Join := fun d f : string => d +:+ "/" +:+ f in
  let os_Stat := fun _ : string => @None nat in
  let os_IsNotExist := fun e : nat => Nat.eqb e 2 in
  let ioutil_ReadFile := fun _ : string => @inr nat string "{servers}" in
  let json_Unmarshal := fun _ : string =>
    @inr nat decodedCache
      {| dImages := None; dSnapshots := None; dBootscripts := None;
         dServers := Some {["id" := "name"]} |} in
  let ioutil_TempFile := fun fs : list string => (@inl nat string 13%nat, fs) in
  let encoder_Encode := fun (file : string) (_ : ScalewayCache) (fs : list string) =>
    (@None nat, file :: fs) in
  let os_Rename := fun (_ path : string) (fs : list string) => (@None nat, path :: fs) in
  let c := {| Images := ∅; Snapshots := ∅; Bootscripts := ∅;
              Servers := {["id" := "name"]};
              Path := "/home/u/.scw-cache.db"; Modified := false |} in
  NewScalewayCache os_Getenv filepath_Join os_Stat os_IsNotExist
                   ioutil_ReadFile json_Unmarshal = Loaded c /\
  Modified c = false /\
  Path c = cachePath os_Getenv filepath_Join /\
  Save ioutil_TempFile encoder_Encode os_Rename c [] = (None, c, []).
Proof.
  cbv zeta. split; [reflexivity|].
  exact (Save_after_load_does_nothing
           (fun v : string => if String.eqb v "HOME" then "/home/u" else EmptyString)
           (fun d f : string => d +:+ "/" +:+ f)
           (fun _ : string => @None nat)
           (fun e : nat => Nat.eqb e 2)
           (fun _ : string => @inr nat string "{servers}")
           (fun _ : string =>
              @inr nat decodedCache
                {| dImages := None; dSnapshots := None; dBootscripts := None;
                   dServers := Some {["id" := "name"]} |})
           (fun fs : list string => (@inl nat string 13%nat, fs))
           (fun (file : string) (_ : ScalewayCache) (fs : list string) =>
              (@None nat, file :: fs))
           (fun (_ path : string) (fs : list string) => (@None nat, path :: fs))
           {| Images := ∅; Snapshots := ∅; Bootscripts := ∅;
              Servers := {["id" := "name"]};
              Path := "/home/u/.scw-cache.db"; Modified := false |}
           [] eq_refl).
Defined.

(** ** The command [rmi] *)

Section RmiFacts.
Context {error W : Type}.
Variable PrintUsage : W -> option W.
Variable PrintShortUsage : W -> option W.
Variable GetImage : string -> W -> option (string * W).
Variable DeleteImage : string -> W -> option error * W.




End RmiFacts.


(** Two of three images exist: the missing one is logged, the two
    others are printed and deleted, and the run exits with status 1. *)
Example runRmi_example :
  let r := runRmi (error := nat) (fun w => Some w) (fun w => Some w)
             (fun (needle : string) (w : list string) => Some (needle, w))
             (fun (image : string) (w : list string) =>
                if bool_decide (image ∈ w)
                then (None, List.filter (fun i => negb (String.eqb i image)) w)
                else (Some 404%nat, w))
             false ["a"; "b"; "c"] ["a"; "c"] in
  rmiStdout r = ["a"; "c"] /\ rmiFailures r = [("b", 404%nat)] /\
  rmiEnding r = ExitStatus 1 /\ rmiWorld r = [].
Proof. vm_compute. repeat split. Qed.

(** ** The endpoint check *)

Section CheckEndpointsFacts.
Context {error API : Type}.
Variable ListIPs : API -> (option N * option error) * API.
Variable ord : KeyOrder.

Lemma checkExpected_acc expected : forall found (complaints : list (complaint error)),
  (checkExpected expected found complaints).1
    = (checkExpected (error := error) expected found []).1 /\
  (checkExpected expected found complaints).2 =
    complaints ++ (checkExpected (error := error) expected found []).2.
Proof.
  induction expected as [|e expected IH]; intros found complaints; simpl.
  - by rewrite app_nil_r.
  - destruct (found !! e).
    + apply IH.
    + destruct (IH (delete e found) (complaints ++ [ExpectedEndpoint e])) as [-> ->].
      destruct (IH (delete e found) [ExpectedEndpoint (error := error) e]) as [-> ->].
      by rewrite app_assoc.
Qed.

Lemma checkUnexpected_spec found (complaints : list (complaint error)) :
  checkUnexpected ord found complaints =
  complaints ++ (UnexpectedEndpoint <$> ord found).
Proof.
  unfold checkUnexpected.
  assert (forall l acc,
            fold_left (fun cs e => cs ++ [UnexpectedEndpoint (error := error) e]) l acc =
            acc ++ (UnexpectedEndpoint <$> l)) as Hfold.
  { induction l as [|x l IH]; intros acc; simpl; [by rewrite app_nil_r|].
    rewrite IH. by rewrite <- app_assoc. }
  destruct (0 <? size found)%nat eqn:Hs; [apply Hfold|].
  apply Nat.ltb_ge in Hs. assert (found = ∅) as -> by (apply map_size_empty_iff; lia).
  assert (ord ∅ = []) as ->.
  { apply Permutation_nil. rewrite (visitKeys_perm ord ∅). by rewrite map_to_list_empty. }
  by rewrite app_nil_r.
Qed.

(** The two last loops find nothing to complain about exactly when
    the expected endpoints are, each once, the endpoints found. *)
Lemma compare_spec expected : forall found,
  (let '(found', complaints) := checkExpected (error := error) expected found [] in
   checkUnexpected ord found' complaints) = [] <->
  NoDup expected /\ forall e, e ∈ expected <-> is_Some (found !! e).
Proof.
  induction expected as [|e expected IH]; intros found; simpl.
  - rewrite checkUnexpected_spec. simpl. split.
    + intros H%fmap_nil_inv. split; [constructor|]. intros e. split.
      * by intros ?%not_elem_of_nil.
      * intros [v Hv]. exfalso.
        assert (e ∈ ord found) as Hin; [|rewrite H in Hin; by apply not_elem_of_nil in Hin].
        rewrite (visitKeys_perm ord found). apply list_elem_of_fmap.
        exists (e, v). split; [done|]. by apply elem_of_map_to_list.
    + intros [_ H]. destruct (ord found) as [|x l] eqn:Hl; [done|]. exfalso.
      assert (x ∈ ord found) as Hin by (rewrite Hl; left).
      rewrite (visitKeys_perm ord found) in Hin.
      apply list_elem_of_fmap in Hin as ([x' v] & -> & Hin).
      apply elem_of_map_to_list in Hin.
      assert (x' ∈ @nil string) as Hx by (apply H; eauto). by apply not_elem_of_nil in Hx.
  - destruct (found !! e) as [v|] eqn:He.
    + rewrite IH. split.
      * intros [Hnd H]. split.
        -- constructor; [|done]. intros Hin%H. rewrite lookup_delete_eq in Hin.
           by destruct Hin.
        -- intros x. rewrite elem_of_cons. split.
           ++ intros [->|Hin%H]; [eauto|].
              destruct (decide (x = e)) as [->|Hne]; [eauto|].
              by rewrite lookup_delete_ne in Hin.
           ++ intros Hx. destruct (decide (x = e)) as [->|Hne]; [by left|].
              right. apply H. by rewrite lookup_delete_ne.
      * intros [Hnd H]. apply NoDup_cons in Hnd as [Hne Hnd]. split; [done|].
        intros x. split.
        -- intros Hin. assert (x <> e) by (intros ->; done).
           rewrite lookup_delete_ne by done. apply H. by right.
        -- intros Hx. destruct (decide (x = e)) as [->|Hxe].
           { rewrite lookup_delete_eq in Hx. by destruct Hx. }
           rewrite lookup_delete_ne in Hx by done.
           apply H in Hx. apply elem_of_cons in Hx as [->|Hx]; done.
    + split.
      * destruct (checkExpected_acc expected (delete e found) [ExpectedEndpoint e])
          as [H1 H2].
        destruct (checkExpected expected (delete e found) [ExpectedEndpoint e])
          as [found' complaints]. simpl in H2. subst complaints.
        rewrite checkUnexpected_spec. done.
      * intros [_ H]. assert (is_Some (found !! e)) as [v Hv] by (apply H; left).
        congruence.
Qed.

(** X21.  When the loop over the endpoints of the instance makes no
    complaint, [checkEndpoints] makes none at all exactly when the
    expected kinds are the kinds found, each expected once, whatever
    the order of the loop over the kinds that are left. *)
Theorem checkEndpoints_accepts_exactly_the_expected (endpoints : list Endpoint)
    (api api' : API) (expected : list string) (found : gmap string bool) :
  findEndpoints ListIPs endpoints (∅, [], api) = Returns (found, [], api') ->
  (checkEndpoints ListIPs ord endpoints api expected = Returns ([], api') <->
   NoDup expected /\ forall e, e ∈ expected <-> is_Some (found !! e)).
Proof.
  intros Hfind. unfold checkEndpoints. rewrite Hfind. simpl.
  rewrite <- compare_spec.
  destruct (checkExpected expected found []) as [found' complaints].
  split; [by intros [= ->]|by intros ->].
Qed.

Lemma findEndpoint_kinds endpoint found0 complaints0 api0 found complaints api' :
  findEndpoint ListIPs endpoint (found0, complaints0, api0)
    = Returns (found, complaints, api') ->
  (is_Some (found !! publicEndpoint) <->
   is_Some (found0 !! publicEndpoint) \/ LoadBalancer endpoint = true) /\
  (forall e, is_Some (found !! e) ->
     is_Some (found0 !! e) \/
     (e = publicEndpoint /\ LoadBalancer endpoint = true) \/
     ((e = privateEndpointIpam \/ e = privateEndpointStatic) /\
      PrivateNetwork endpoint = true)).
Proof.
  unfold findEndpoint.
  destruct (LoadBalancer endpoint), (PrivateNetwork endpoint);
    try (destruct (ListIPs api0) as [[[total|] err] api1]; [|discriminate];
         destruct (total =? 1)%N; [|destruct (total =? 0)%N]);
    intros [= <- <- <-]; (split; [|intros e]);
    rewrite ?lookup_insert_is_Some;
    intuition (subst; auto; discriminate).
Qed.

Lemma findEndpoints_kinds_from endpoints : forall found0 complaints0 api0 found complaints api',
  findEndpoints ListIPs endpoints (found0, complaints0, api0)
    = Returns (found, complaints, api') ->
  (is_Some (found !! publicEndpoint) <->
   is_Some (found0 !! publicEndpoint) \/
   Exists (fun endpoint => LoadBalancer endpoint = true) endpoints) /\
  (forall e, is_Some (found !! e) ->
     is_Some (found0 !! e) \/
     (e = publicEndpoint /\
      Exists (fun endpoint => LoadBalancer endpoint = true) endpoints) \/
     ((e = privateEndpointIpam \/ e = privateEndpointStatic) /\
      Exists (fun endpoint => PrivateNetwork endpoint = true) endpoints)).
Proof.
  induction endpoints as [|endpoint endpoints IH];
    intros found0 complaints0 api0 found complaints api'; cbn [findEndpoints].
  - intros [= <- <- <-]. split.
    + split; [by left|]. intros [H|H]; [done|]. by apply Exists_nil in H.
    + intros e He. by left.
  - destruct (findEndpoint ListIPs endpoint (found0, complaints0, api0))
      as [[[found1 complaints1] api1]| |] eqn:H1; simpl; [|intros; discriminate..].
    intros H2. apply findEndpoint_kinds in H1 as [H1a H1b].
    apply IH in H2 as [H2a H2b]. split.
    + rewrite H2a, H1a, Exists_cons. tauto.
    + intros e He. apply H2b in He as [He|[[-> He]|[He1 He2]]].
      * apply H1b in He as [He|[[-> He]|[He1 He2]]]; [by left|..].
        -- right. left. split; [done|]. by apply Exists_cons_hd.
        -- right. right. split; [done|]. by apply Exists_cons_hd.
      * right. left. split; [done|]. by apply Exists_cons_tl.
      * right. right. split; [done|]. by apply Exists_cons_tl.
Qed.

(** X20.  When the loop over the endpoints of the instance returns,
    the public kind is found exactly when an endpoint has a load
    balancer, and every other kind found is one of the two private
    kinds, found only when an endpoint has a private network. *)
Theorem findEndpoints_kinds (endpoints : list Endpoint) (api api' : API)
    (found : gmap string bool) (complaints : list (complaint error)) :
  findEndpoints ListIPs endpoints (∅, [], api) = Returns (found, complaints, api') ->
  (is_Some (found !! publicEndpoint) <->
   Exists (fun endpoint => LoadBalancer endpoint = true) endpoints) /\
  (forall e, is_Some (found !! e) ->
     e = publicEndpoint \/
     ((e = privateEndpointIpam \/ e = privateEndpointStatic) /\
      Exists (fun endpoint => PrivateNetwork endpoint = true) endpoints)).
Proof.
  intros [Ha Hb]%findEndpoints_kinds_from. split.
  - rewrite Ha, lookup_empty. split; [|by right].
    intros [H|H]; [by destruct H|done].
  - intros e He. apply Hb in He as [He|[[-> _]|He]].
    + rewrite lookup_empty in He. by destruct He.
    + by left.
    + by right.
Qed.

End CheckEndpointsFacts.

Lemma findEndpoints_kinds_witness :
  let ListIPs := fun api : nat => ((Some 0%N, @None unit), S api) in
  let endpoints := [ {| LoadBalancer := true; PrivateNetwork := false |};
                     {| LoadBalancer := false; PrivateNetwork := true |} ] in
  let found : gmap string bool :=
    <[privateEndpointStatic := true]> (<[publicEndpoint := true]> ∅) in
  findEndpoints ListIPs endpoints (∅, [], 0%nat) = Returns (found, [], 1%nat) /\
  (is_Some (found !! publicEndpoint) <->
   Exists (fun endpoint => LoadBalancer endpoint = true) endpoints) /\
  (forall e, is_Some (found !! e) ->
     e = publicEndpoint \/
     ((e = privateEndpointIpam \/ e = privateEndpointStatic) /\
      Exists (fun endpoint => PrivateNetwork endpoint = true) endpoints)).
Proof.
  cbv zeta. split; [reflexivity|].
  exact (findEndpoints_kinds (fun api : nat => ((Some 0%N, @None unit), S api))
           [ {| LoadBalancer := true; PrivateNetwork := false |};
             {| LoadBalancer := false; PrivateNetwork := true |} ]
           0%nat 1%nat
           (<[privateEndpointStatic := true]> (<[publicEndpoint := true]> ∅))
           [] eq_refl).
Defined.

Lemma checkEndpoints_accepts_exactly_the_expected_witness :
  let ListIPs := fun api : nat => ((Some 0%N, @None unit), S api) in
  let endpoints := [ {| LoadBalancer := true; PrivateNetwork := false |};
                     {| LoadBalancer := false; PrivateNetwork := true |} ] in
  let found : gmap string bool :=
    <[privateEndpointStatic := true]> (<[publicEndpoint := true]> ∅) in
  let expected := [publicEndpoint; privateEndpointStatic] in
  findEndpoints ListIPs endpoints (∅, [], 0%nat) = Returns (found, [], 1%nat) /\
  (checkEndpoints ListIPs sortedKeys endpoints 0%nat expected = Returns ([], 1%nat) <->
   NoDup expected /\ forall e, e ∈ expected <-> is_Some (found !! e)).
Proof.
  cbv zeta. split; [reflexivity|].
  exact (checkEndpoints_accepts_exactly_the_expected
           (fun api : nat => ((Some 0%N, @None unit), S api)) sortedKeys
           [ {| LoadBalancer := true; PrivateNetwork := false |};
             {| LoadBalancer := false; PrivateNetwork := true |} ]
           0%nat 1%nat [publicEndpoint; privateEndpointStatic]
           (<[privateEndpointStatic := true]> (<[publicEndpoint := true]> ∅))
           eq_refl).
Defined.
